(** * The evaluation harness of the biaffine parser ([src/eval.py])

    A shallow embedding of [Evaluator], [write_conll] and [exec_eval], and
    the properties of the evaluation subsystem that the specification states
    about them.

    Conventions of the embedding.
    - A Python [str] is a Rocq [string] holding the UTF-8 encoding of the
      text: a character below U+0080 is one [ascii], any other character is
      the two to four bytes of its encoding.  Splitting on ['\n'], [' '] and
      ['\t'] and concatenation act on the bytes exactly as they act on the
      characters, since these bytes never occur inside a longer sequence.
    - A Python [int] is a [Z]; a Python [float] is a binary64 value, written
      as a [spec_float].
    - Statements that mutate [self._parsed], write files or log are functions
      in a state-and-exception monad over a [World]; an exception leaves the
      world as the statements before it made it.
    - The operating system services are assumed to work: a temporary file can
      be created and written, and the perl process can be started.  What the
      process answers (exit code, output, diagnostics) is arbitrary. *)

From Stdlib Require Import ZArith NArith String Ascii List Lia Bool.
From Stdlib Require Import Floats.SpecFloat.
From stdpp Require Import base option list strings pretty gmap stringmap.

Local Open Scope string_scope.
Local Open Scope Z_scope.

(* ===================================================================== *)
(** * Part I: definitions *)
(* ===================================================================== *)

(** ** Python's string operations *)

Module Text.

(** [s + t] on [str]. *)
Notation "s +++ t" := (String.append s t)
  (at level 60, right associativity) : string_scope.

(** [sep.join(parts)]. *)
Fixpoint join (sep : string) (parts : list string) : string :=
  match parts with
  | [] => ""
  | [p] => p
  | p :: rest => p +++ sep +++ join sep rest
  end.

(** [s.split(sep, maxsplit)] for a separator of one character: the text is
    cut at the [maxsplit] leftmost occurrences of [sep]. *)
Fixpoint split (sep : ascii) (maxsplit : nat) (s : string) : list string :=
  match s with
  | EmptyString => [""]
  | String c s' =>
      match maxsplit with
      | O => [s]
      | S n =>
          if Ascii.eqb c sep then "" :: split sep n s'
          else match split sep maxsplit s' with
               | h :: t => String c h :: t
               | [] => [String c ""]
               end
      end
  end.

(** [s.split(sep)] with no bound on the number of cuts. *)
Definition split_all (sep : ascii) (s : string) : list string :=
  split sep (String.length s) s.

(** The text read backwards. *)
Fixpoint reverse (s : string) : string :=
  match s with
  | EmptyString => ""
  | String c s' => reverse s' +++ String c ""
  end.

(** [s.rsplit(sep, maxsplit)] for a separator of one character: as [split],
    scanning from the right end. *)
Definition rsplit (sep : ascii) (maxsplit : nat) (s : string) : list string :=
  rev (map reverse (split sep maxsplit (reverse s))).

(** [str(n)] for an [int]. *)
Definition str_of_int (n : Z) : string := pretty n.

(** [c in s]. *)
Fixpoint contains (c : ascii) (s : string) : bool :=
  match s with
  | EmptyString => false
  | String c' s' => Ascii.eqb c' c || contains c s'
  end.

End Text.
Import Text.

(** ** Unicode: the UTF-8 codec and the character classes Python consults *)

Module Unicode.

Definition code (c : ascii) : N := N_of_ascii c.

(** A continuation byte, 0x80..0xBF. *)
Definition is_cont (c : ascii) : bool :=
  ((128 <=? code c) && (code c <=? 191))%N.

Definition payload (c : ascii) : N := (code c mod 64)%N.

(** The strict UTF-8 decoder of [bytes.decode('utf-8')]: the characters of
    the text, each as its code point and the bytes that encode it, or
    [None] where Python raises [UnicodeDecodeError] (stray or missing
    continuation bytes, overlong forms, surrogates, code points above
    U+10FFFF). *)
Fixpoint utf8_chars (b : string) : option (list (N * string)) :=
  match b with
  | EmptyString => Some []
  | String b0 r0 =>
      let n0 := code b0 in
      if (n0 <? 128)%N then
        cons (n0, String b0 "") <$> utf8_chars r0
      else if ((194 <=? n0) && (n0 <=? 223))%N then
        match r0 with
        | String b1 r1 =>
            if is_cont b1 then
              cons (((n0 mod 32) * 64 + payload b1)%N,
                    String b0 (String b1 "")) <$> utf8_chars r1
            else None
        | _ => None
        end
      else if ((224 <=? n0) && (n0 <=? 239))%N then
        match r0 with
        | String b1 (String b2 r2) =>
            let cp := (((n0 mod 16) * 64 + payload b1) * 64 + payload b2)%N in
            if is_cont b1 && is_cont b2 && (2048 <=? cp)%N
               && negb ((55296 <=? cp) && (cp <=? 57343))%N then
              cons (cp, String b0 (String b1 (String b2 ""))) <$> utf8_chars r2
            else None
        | _ => None
        end
      else if ((240 <=? n0) && (n0 <=? 244))%N then
        match r0 with
        | String b1 (String b2 (String b3 r3)) =>
            let cp := ((((n0 mod 8) * 64 + payload b1) * 64 + payload b2) * 64
                       + payload b3)%N in
            if is_cont b1 && is_cont b2 && is_cont b3
               && (65536 <=? cp)%N && (cp <=? 1114111)%N then
              cons (cp, String b0 (String b1 (String b2 (String b3 ""))))
                <$> utf8_chars r3
            else None
        | _ => None
        end
      else None
  end.

(** [str.isspace] of one character ([Py_UNICODE_ISSPACE]). *)
Definition isspace (cp : N) : bool :=
  (((9 <=? cp) && (cp <=? 13)) || ((28 <=? cp) && (cp <=? 32))
   || (cp =? 133) || (cp =? 160) || (cp =? 5760)
   || ((8192 <=? cp) && (cp <=? 8202))
   || (cp =? 8232) || (cp =? 8233) || (cp =? 8239) || (cp =? 8287)
   || (cp =? 12288))%N.

(** The code points of the digit zero of every decimal script above
    U+007F (general category Nd, Unicode 14.0 as shipped with CPython
    3.11); the nine code points after each are its digits one to nine. *)
Definition decimal_zeros : list N :=
  [1632; 1776; 1984; 2406; 2534; 2662; 2790; 2918; 3046; 3174; 3302; 3430;
   3558; 3664; 3792; 3872; 4160; 4240; 6112; 6160; 6470; 6608; 6784; 6800;
   6992; 7088; 7232; 7248; 42528; 43216; 43264; 43472; 43504; 43600; 44016;
   65296; 66720; 68912; 69734; 69872; 69942; 70096; 70384; 70736; 70864;
   71248; 71360; 71472; 71904; 72016; 72784; 73040; 73120; 92768; 92864;
   93008; 120782; 120792; 120802; 120812; 120822; 123200; 123632; 125264;
   130032]%N.

(** [Py_UNICODE_TODECIMAL]: the value of a decimal digit character. *)
Definition todecimal (cp : N) : option N :=
  if ((48 <=? cp) && (cp <=? 57))%N then Some (cp - 48)%N
  else (fun z => (cp - z)%N)
         <$> List.find (fun z => ((z <=? cp) && (cp <? z + 10))%N) decimal_zeros.

(** [b.decode('utf-8')]: the text itself when the bytes are well formed. *)
Definition decode (b : string) : option string :=
  match utf8_chars b with
  | Some _ => Some b
  | None => None
  end.

Fixpoint drop_trailing_spaces (cs : list (N * string)) : list (N * string) :=
  match cs with
  | [] => []
  | c :: rest =>
      match drop_trailing_spaces rest with
      | [] => if isspace (fst c) then [] else [c]
      | kept => c :: kept
      end
  end.

(** [s.rstrip()]: the text without its trailing whitespace characters. *)
Definition rstrip (s : string) : string :=
  match utf8_chars s with
  | Some cs => String.concat "" (map snd (drop_trailing_spaces cs))
  | None => s
  end.

End Unicode.


(** ** Python's [float(str)] *)

Module PyFloat.

(** The binary64 value nearest to [(-1)^neg * m * 10^e] (ties to even; an
    overflow gives an infinity), which is what CPython's [strtod] returns. *)
Definition of_decimal (neg : bool) (m : N) (e : Z) : spec_float :=
  match m with
  | N0 => S754_zero neg
  | Npos p =>
      SFdiv 53 1024
        (S754_finite neg (p * Z.to_pos (10 ^ Z.max e 0)) 0)
        (S754_finite false (Z.to_pos (10 ^ Z.max (- e) 0)) 0)
  end.

Definition is_digit (c : ascii) : bool :=
  ((48 <=? Unicode.code c) && (Unicode.code c <=? 57))%N.

(** [Py_ISSPACE]: space, [\t], [\n], [\v], [\f], [\r]. *)
Definition is_space (c : ascii) : bool :=
  ((Unicode.code c =? 32) || ((9 <=? Unicode.code c) && (Unicode.code c <=? 13)))%N.

Definition lower (c : ascii) : ascii :=
  if ((65 <=? Unicode.code c) && (Unicode.code c <=? 90))%N
  then ascii_of_N (Unicode.code c + 32) else c.

(** Step 1 ([_PyUnicode_TransformDecimalAndSpaceToASCII]): a whitespace
    character above U+007F becomes a space, a decimal digit above U+007F its
    ASCII digit; any other character above U+007F makes the text invalid. *)
Fixpoint to_ascii (cps : list N) : option (list ascii) :=
  match cps with
  | [] => Some []
  | cp :: rest =>
      if (cp <? 128)%N then cons (ascii_of_N cp) <$> to_ascii rest
      else if Unicode.isspace cp then cons " "%char <$> to_ascii rest
      else match Unicode.todecimal cp with
           | Some d => cons (ascii_of_N (48 + d)) <$> to_ascii rest
           | None => None
           end
  end.

Fixpoint lstrip (s : list ascii) : list ascii :=
  match s with
  | c :: rest => if is_space c then lstrip rest else s
  | [] => []
  end.

(** Step 2: leading and trailing whitespace is dropped. *)
Definition strip (s : list ascii) : list ascii :=
  rev (lstrip (rev (lstrip s))).

(** Step 3 ([_Py_string_to_number_with_underscores]): an underscore is
    accepted only between two digits, and removed. [prev] is the character
    before [s], NUL at the start. *)
Fixpoint strip_underscores (prev : ascii) (s : list ascii)
  : option (list ascii) :=
  match s with
  | [] => if Ascii.eqb prev "_" then None else Some []
  | c :: rest =>
      if Ascii.eqb c "_" then
        if is_digit prev then strip_underscores c rest else None
      else if Ascii.eqb prev "_" && negb (is_digit c) then None
      else cons c <$> strip_underscores c rest
  end.

(** The longest prefix of digits, and what follows it. *)
Fixpoint span_digits (s : list ascii) : list ascii * list ascii :=
  match s with
  | c :: rest =>
      if is_digit c then let '(ds, r) := span_digits rest in (c :: ds, r)
      else ([], s)
  | [] => ([], [])
  end.

Definition digits_value (ds : list ascii) : N :=
  fold_left (fun acc c => (10 * acc + (Unicode.code c - 48))%N) ds 0%N.

Definition take_sign (s : list ascii) : bool * list ascii :=
  match s with
  | c :: rest =>
      if Ascii.eqb c "-" then (true, rest)
      else if Ascii.eqb c "+" then (false, rest)
      else (false, s)
  | [] => (false, [])
  end.

(** The exponent part: nothing, or [e] or [E], an optional sign and at least
    one digit, up to the end of the text. *)
Definition parse_exponent (s : list ascii) : option Z :=
  match s with
  | [] => Some 0
  | c :: rest =>
      if Ascii.eqb (lower c) "e" then
        let '(neg, r) := take_sign rest in
        match span_digits r with
        | (d :: ds, []) =>
            let v := Z.of_N (digits_value (d :: ds)) in
            Some (if neg then - v else v)
        | _ => None
        end
      else None
  end.

(** Step 4 ([PyOS_string_to_double], the whole text must be consumed): an
    optional sign, then [inf], [infinity] or [nan] in any case, or a decimal
    numeral with at least one digit and an optional exponent. *)
Definition parse (s : list ascii) : option spec_float :=
  let '(neg, body) := take_sign s in
  let word := string_of_list_ascii (map lower body) in
  if String.eqb word "inf" || String.eqb word "infinity" then
    Some (S754_infinity neg)
  else if String.eqb word "nan" then Some S754_nan
  else
    let '(ip, r1) := span_digits body in
    let '(fp, r2) :=
      match r1 with
      | c :: r => if Ascii.eqb c "." then span_digits r else ([], r1)
      | [] => ([], [])
      end in
    match (ip ++ fp)%list with
    | [] => None
    | ds =>
        e ← parse_exponent r2;
        Some (of_decimal neg (digits_value ds) (e - Z.of_nat (length fp)))
    end.

(** [float(s)], [None] where Python raises [ValueError]. *)
Definition float (s : string) : option spec_float :=
  cs ← Unicode.utf8_chars s;
  a ← to_ascii (map fst cs);
  let t := strip a in
  u ← (if existsb (Ascii.eqb "_") t then strip_underscores "000"%char t else Some t);
  parse u.

End PyFloat.

(** ** The data model *)

Definition NL : string := String "010" "".
Definition TAB : string := String "009" "".

(** A token, the dict with the ten CoNLL-X keys that the loader builds. *)
Module Token.
Record t := {
  id : Z;
  form : string;
  lemma : string;
  cpostag : string;
  postag : string;
  feats : string;
  head : Z;
  deprel : string;
  phead : string;
  pdeprel : string;
}.
End Token.

(** [Evaluator._parsed]. *)
Module Parsed.
Record t := {
  sentences : list (list Token.t);
  heads : list (list Z);
  deprels : list (list string);
  UAS : option spec_float;
  LAS : option spec_float;
}.
End Parsed.

(** The dict that [exec_eval] returns. *)
Module Result.
Record t := {
  code : Z;
  raw : string;
  UAS : option spec_float;
  LAS : option spec_float;
}.
End Result.

(** What [subprocess.run] returns: the exit code (negative when the process
    was killed by a signal) and the two captured streams, as bytes. *)
Record CompletedProcess := {
  returncode : Z;
  stdout : string;
  stderr : string;
}.

(** The effects that leave the program, in the order they happen. [Run]
    records the command line of a [subprocess.run] call and the files as
    they were when the process started. *)
Inductive event :=
| Stderr (text : string)
| Run (command : list string) (disk : gmap string string)
| LogInfo (message : string).

(** The mutable state: the evaluator's own fields, the files (by name, with
    their text), and the effects so far, the latest last. *)
Record World := {
  _gold_file : string;
  _parsed : Parsed.t;
  files : gmap string string;
  trace : list event;
}.

Definition set_gold_file (g : string) (w : World) : World :=
  {| _gold_file := g; _parsed := _parsed w; files := files w; trace := trace w |}.
Definition set_parsed (p : Parsed.t) (w : World) : World :=
  {| _gold_file := _gold_file w; _parsed := p; files := files w; trace := trace w |}.
Definition set_files (fs : gmap string string) (w : World) : World :=
  {| _gold_file := _gold_file w; _parsed := _parsed w; files := fs; trace := trace w |}.
Definition add_event (e : event) (w : World) : World :=
  {| _gold_file := _gold_file w; _parsed := _parsed w; files := files w;
     trace := (trace w ++ [e])%list |}.

(** The batch payload that the trainer hands to a listener: [data['train']]
    and [data['xs']], the latter as its columns but the last (the inputs of
    the model) and its last column (the sentences, each led by the root
    token). *)
Record BatchData (X : Type) := {
  train : bool;
  xs_inputs : list X;
  xs_tokens : list (list Token.t);
}.
Arguments train {X} _.
Arguments xs_inputs {X} _.
Arguments xs_tokens {X} _.

(** The collaborators of the evaluator and the services of the operating
    system. Each may answer differently in different worlds, so any sequence
    of answers is some [Env]. *)
Record Env (X : Type) := {
  (** [Evaluator.SCRIPT], the path of [common/eval.pl] next to the module *)
  SCRIPT : string;
  (** [os.path.abspath(os.path.expanduser(path))] *)
  abspath_expanduser : string -> string;
  (** the name of the file that [NamedTemporaryFile] creates *)
  tempfile_name : World -> string;
  (** the perl process *)
  subprocess_run : World -> list string -> CompletedProcess;
  (** [self._parser.parse] on the unpacked inputs and [use_cache]: per sentence, the
      predicted heads and the predicted deprel ids *)
  parser_parse : World -> list X -> bool -> list (list Z * list Z);
  (** [self._deprel_map.lookup(id)], [None] where the map raises *)
  deprel_map_lookup : Z -> option string;
}.
Arguments SCRIPT {X} _.
Arguments abspath_expanduser {X} _ _.
Arguments tempfile_name {X} _ _.
Arguments subprocess_run {X} _ _ _.
Arguments parser_parse {X} _ _ _ _.
Arguments deprel_map_lookup {X} _ _.

(** ** Exceptions and the monad of statements *)

Inductive exn := IndexError | ValueError | UnicodeDecodeError | LookupError.

Inductive outcome (A : Type) :=
| Ok (a : A)
| Raise (e : exn).
Arguments Ok {A} a.
Arguments Raise {A} e.

Definition M (A : Type) : Type := World -> outcome A * World.

Definition ret {A} (a : A) : M A := fun w => (Ok a, w).
Definition raise {A} (e : exn) : M A := fun w => (Raise e, w).
Definition bind {A B} (m : M A) (k : A -> M B) : M B :=
  fun w => match m w with
           | (Ok a, w') => k a w'
           | (Raise e, w') => (Raise e, w')
           end.
(** An expression that may raise, used as a statement. *)
Definition lift {A} (o : outcome A) : M A := fun w => (o, w).
Definition get : M World := fun w => (Ok w, w).
Definition modify (f : World -> World) : M unit := fun w => (Ok tt, f w).

Declare Scope py_scope.
Delimit Scope py_scope with py.
Notation "x <- m ;; k" := (bind m (fun x => k))
  (at level 100, m at next level, right associativity) : py_scope.
Notation "m ;;; k" := (bind m (fun _ => k))
  (at level 100, right associativity) : py_scope.

(** The same for expressions. *)
Definition obind {A B} (o : outcome A) (k : A -> outcome B) : outcome B :=
  match o with
  | Ok a => k a
  | Raise e => Raise e
  end.

(** [l[i]] for [i >= 0]. *)
Definition index {A} (l : list A) (i : nat) : outcome A :=
  match l !! i with
  | Some x => Ok x
  | None => Raise IndexError
  end.

(** [l[-2]]. *)
Definition index_neg2 {A} (l : list A) : outcome A :=
  if (2 <=? length l)%nat then index l (length l - 2) else Raise IndexError.

(** A list comprehension whose element expression may raise. *)
Fixpoint comprehension {A B} (f : A -> outcome B) (l : list A) : outcome (list B) :=
  match l with
  | [] => Ok []
  | x :: rest =>
      obind (f x) (fun y => obind (comprehension f rest) (fun ys => Ok (y :: ys)))
  end.

(** ** The program: [src/eval.py] *)

Section Program.

Context {X : Type} (E : Env X).

Local Open Scope py_scope.

(** *** Files *)

(** [writer.write(text)]: the text is added at the end of the file.  The
    text counts as written at once; [writer.flush()], which the source calls
    before anything reads the file, is then the empty statement. *)
Definition write (writer : string) (text : string) : M unit :=
  modify (fun w =>
    set_files (<[writer := default "" (files w !! writer) +++ text]> (files w)) w).

Definition flush (writer : string) : M unit := ret tt.

(** [with NamedTemporaryFile(mode='w') as f: body]: a new empty file; it is
    deleted when the block is left, by its end or by an exception. *)
Definition with_NamedTemporaryFile {A} (body : string -> M A) : M A :=
  fun w =>
    let f := tempfile_name E w in
    let '(r, w') := body f (set_files (<[f := ""]> (files w)) w) in
    (r, set_files (delete f (files w')) w').

(** *** [write_conll] *)

(** The line of one token: [heads[i][j]] and [deprels[i][j]] when the
    arguments are given, the token's own fields when they are [None]. *)
Definition conll_line (token : Token.t) (i j : nat)
    (heads : option (list (list Z))) (deprels : option (list (list string)))
  : outcome string :=
  obind (match heads with
         | Some hs => obind (index hs i) (fun row =>
                      obind (index row j) (fun h => Ok (str_of_int h)))
         | None => Ok (str_of_int (Token.head token))
         end) (fun head =>
  obind (match deprels with
         | Some ds => obind (index ds i) (fun row => index row j)
         | None => Ok (Token.deprel token)
         end) (fun deprel =>
  Ok (join TAB [ str_of_int (Token.id token);
                 Token.form token;
                 Token.lemma token;
                 Token.cpostag token;
                 Token.postag token;
                 Token.feats token;
                 head;
                 deprel;
                 Token.phead token;
                 Token.pdeprel token ]))).

(** The inner loop, from token number [j] of sentence [i] on. *)
Fixpoint write_tokens (writer : string) (i j : nat) (tokens : list Token.t)
    (heads : option (list (list Z))) (deprels : option (list (list string)))
  : M unit :=
  match tokens with
  | [] => ret tt
  | token :: rest =>
      line <- lift (conll_line token i j heads deprels) ;;
      write writer (line +++ NL) ;;;
      write_tokens writer i (S j) rest heads deprels
  end.

(** The outer loop, from sentence number [i] on. *)
Fixpoint write_sentences (writer : string) (i : nat)
    (sentences : list (list Token.t))
    (heads : option (list (list Z))) (deprels : option (list (list string)))
  : M unit :=
  match sentences with
  | [] => ret tt
  | tokens :: rest =>
      write_tokens writer i 0 tokens heads deprels ;;;
      write writer NL ;;;
      write_sentences writer (S i) rest heads deprels
  end.

Definition write_conll (writer : string) (sentences : list (list Token.t))
    (heads : option (list (list Z))) (deprels : option (list (list string)))
  : M unit :=
  write_sentences writer 0 sentences heads deprels ;;;
  flush writer.

(** *** [exec_eval] *)

Definition PERL : string := "/usr/bin/perl".

Definition command_line (parsed_file gold_file : string) (show_details : bool)
  : list string :=
  ([PERL; SCRIPT E; "-g"; gold_file; "-s"; parsed_file]
   ++ (if show_details then [] else ["-q"]))%list.

(** [subprocess.run(command, stdout=PIPE, stderr=PIPE)]. *)
Definition run (command : list string) : M CompletedProcess :=
  fun w => (Ok (subprocess_run E w command), add_event (Run command (files w)) w).

(** [b.decode('utf-8')]. *)
Definition decode (b : string) : outcome string :=
  match Unicode.decode b with
  | Some s => Ok s
  | None => Raise UnicodeDecodeError
  end.

(** [float(s)]. *)
Definition float (s : string) : outcome spec_float :=
  match PyFloat.float s with
  | Some x => Ok x
  | None => Raise ValueError
  end.

(** [[float(line.rsplit(' ', 2)[-2]) for line in lines]] and the unpacking
    of the list into [LAS, UAS]. *)
Definition parse_scores (output : string) : outcome (spec_float * spec_float) :=
  let lines := take 2 (split "010" 2 output) in
  obind (comprehension
           (fun line => obind (index_neg2 (rsplit " " 2 line)) float) lines)
    (fun values =>
       match values with
       | [las; uas] => Ok (las, uas)
       | _ => Raise ValueError
       end).

Definition exec_eval (parsed_file gold_file : string) (show_details : bool)
  : M Result.t :=
  let command := command_line parsed_file gold_file show_details in
  modify (add_event (Stderr ("exec command: " +++ join " " command))) ;;;
  p <- run command ;;
  output <- lift (decode (if returncode p =? 0 then stdout p else stderr p)) ;;
  let result := {| Result.code := returncode p; Result.raw := output;
                   Result.UAS := None; Result.LAS := None |} in
  if returncode p =? 0 then
    scores <- lift (parse_scores output) ;;
    ret {| Result.code := returncode p; Result.raw := output;
           Result.UAS := Some (snd scores); Result.LAS := Some (fst scores) |}
  else ret result.

(** *** [Evaluator] *)

Definition reset : M unit :=
  modify (set_parsed {| Parsed.sentences := []; Parsed.heads := [];
                        Parsed.deprels := [];
                        Parsed.UAS := None; Parsed.LAS := None |}).

Definition set_gold (gold_file : string) : M unit :=
  modify (set_gold_file (abspath_expanduser E gold_file)) ;;;
  reset.

Definition extend_sentences (new : list (list Token.t)) : M unit :=
  modify (fun w =>
    let p := _parsed w in
    set_parsed {| Parsed.sentences := (Parsed.sentences p ++ new)%list;
                  Parsed.heads := Parsed.heads p;
                  Parsed.deprels := Parsed.deprels p;
                  Parsed.UAS := Parsed.UAS p; Parsed.LAS := Parsed.LAS p |} w).

Definition extend_heads (new : list (list Z)) : M unit :=
  modify (fun w =>
    let p := _parsed w in
    set_parsed {| Parsed.sentences := Parsed.sentences p;
                  Parsed.heads := (Parsed.heads p ++ new)%list;
                  Parsed.deprels := Parsed.deprels p;
                  Parsed.UAS := Parsed.UAS p; Parsed.LAS := Parsed.LAS p |} w).

Definition extend_deprels (new : list (list string)) : M unit :=
  modify (fun w =>
    let p := _parsed w in
    set_parsed {| Parsed.sentences := Parsed.sentences p;
                  Parsed.heads := Parsed.heads p;
                  Parsed.deprels := (Parsed.deprels p ++ new)%list;
                  Parsed.UAS := Parsed.UAS p; Parsed.LAS := Parsed.LAS p |} w).

(** [heads, deprels = zip( *parsed)]: the transposition of a sequence of
    pairs gives two tuples when there is at least one pair and nothing to
    unpack when there is none. *)
Definition unzip_parsed (parsed : list (list Z * list Z))
  : outcome (list (list Z) * list (list Z)) :=
  match parsed with
  | [] => Raise ValueError
  | _ => Ok (map fst parsed, map snd parsed)
  end.

(** [self._deprel_map.lookup(d if d > 0 else 0)]. *)
Definition label (d : Z) : outcome string :=
  match deprel_map_lookup E (if 0 <? d then d else 0) with
  | Some l => Ok l
  | None => Raise LookupError
  end.

(** [list.extend] of a generator takes the items one by one: the labels of
    a sentence are added once all of them are computed, and those of the
    sentences before a failing one stay. *)
Fixpoint extend_labels (deprels : list (list Z)) : M unit :=
  match deprels with
  | [] => ret tt
  | deprel :: rest =>
      labels <- lift (comprehension label deprel) ;;
      extend_deprels [labels] ;;;
      extend_labels rest
  end.

Definition append (sentences : list (list Token.t))
    (parsed : list (list Z * list Z)) : M unit :=
  extend_sentences sentences ;;;
  columns <- lift (unzip_parsed parsed) ;;
  extend_heads (fst columns) ;;;
  extend_labels (snd columns).

Definition store_scores (result : Result.t) : M unit :=
  modify (fun w =>
    let p := _parsed w in
    set_parsed {| Parsed.sentences := Parsed.sentences p;
                  Parsed.heads := Parsed.heads p;
                  Parsed.deprels := Parsed.deprels p;
                  Parsed.UAS := Result.UAS result;
                  Parsed.LAS := Result.LAS result |} w).

Definition success_message (result : Result.t) : string :=
  "[evaluation]" +++ NL +++ Unicode.rstrip (Result.raw result).

Definition error_message (result : Result.t) : string :=
  "[evaluation] ERROR(" +++ str_of_int (Result.code result) +++ "): "
  +++ Unicode.rstrip (Result.raw result).

Definition report (show_details : bool) : M unit :=
  result <- with_NamedTemporaryFile (fun f =>
    w <- get ;;
    write_conll f (Parsed.sentences (_parsed w))
      (Some (Parsed.heads (_parsed w))) (Some (Parsed.deprels (_parsed w))) ;;;
    result <- exec_eval f (_gold_file w) show_details ;;
    if negb (Result.code result =? 0) then
      with_NamedTemporaryFile (fun gold_f =>
        write_conll gold_f (Parsed.sentences (_parsed w)) None None ;;;
        exec_eval f gold_f show_details)
    else ret result) ;;
  message <- (if Result.code result =? 0 then
                store_scores result ;;;
                ret (success_message result)
              else ret (error_message result)) ;;
  modify (add_event (LogInfo message)).

Definition on_batch_begin (data : BatchData X) : M unit := ret tt.

Definition on_batch_end (data : BatchData X) : M unit :=
  if train data then ret tt
  else
    parsed <- (fun w => (Ok (parser_parse E w (xs_inputs data) true), w)) ;;
    append (map (drop 1) (xs_tokens data)) parsed.

Definition on_epoch_validate_begin (data : BatchData X) : M unit := reset.

Definition on_epoch_validate_end (data : BatchData X) : M unit := report false.

(** The property [result]. *)
Definition result : M Parsed.t := fun w => (Ok (_parsed w), w).

End Program.

(** ** Notions in which the properties are stated *)

(** [covers rows sentences]: [rows[i][j]] exists for every token [j] of every
    sentence [i]. *)
Fixpoint covers {A} (rows : list (list A)) (sentences : list (list Token.t)) : bool :=
  match sentences, rows with
  | [], _ => true
  | tokens :: rest, row :: rows' =>
      (length tokens <=? length row)%nat && covers rows' rest
  | _ :: _, [] => false
  end.

Definition covers_if_given {A} (rows : option (list (list A)))
    (sentences : list (list Token.t)) : bool :=
  match rows with
  | Some rs => covers rs sentences
  | None => true
  end.

(** The accumulated predictions are parallel to the accumulated sentences. *)
Definition parallel (p : Parsed.t) : bool :=
  covers (Parsed.heads p) (Parsed.sentences p)
  && covers (Parsed.deprels p) (Parsed.sentences p).

Definition set_head (h : Z) (t : Token.t) : Token.t :=
  {| Token.id := Token.id t; Token.form := Token.form t;
     Token.lemma := Token.lemma t; Token.cpostag := Token.cpostag t;
     Token.postag := Token.postag t; Token.feats := Token.feats t;
     Token.head := h; Token.deprel := Token.deprel t;
     Token.phead := Token.phead t; Token.pdeprel := Token.pdeprel t |}.

Definition set_deprel (d : string) (t : Token.t) : Token.t :=
  {| Token.id := Token.id t; Token.form := Token.form t;
     Token.lemma := Token.lemma t; Token.cpostag := Token.cpostag t;
     Token.postag := Token.postag t; Token.feats := Token.feats t;
     Token.head := Token.head t; Token.deprel := d;
     Token.phead := Token.phead t; Token.pdeprel := Token.pdeprel t |}.

(** The encoder as the specification words it (ConllCodec, [encode]). *)
Module ConllCodec.

(** The ten fields of a token, in the fixed order. *)
Definition fields (t : Token.t) : list string :=
  [ str_of_int (Token.id t); Token.form t; Token.lemma t; Token.cpostag t;
    Token.postag t; Token.feats t; str_of_int (Token.head t);
    Token.deprel t; Token.phead t; Token.pdeprel t ].

(** One line per token: the fields, separated by tabs. *)
Definition token_line (t : Token.t) : string := join TAB (fields t) +++ NL.

(** Every sentence is followed by a blank line. *)
Definition sentence_block (tokens : list Token.t) : string :=
  join "" (map token_line tokens) +++ NL.

(** Values that are supplied replace the tokens' own. *)
Definition override {A} (set : A -> Token.t -> Token.t)
    (rows : option (list (list A))) (sentences : list (list Token.t))
  : list (list Token.t) :=
  match rows with
  | Some rs => zip_with (zip_with set) rs sentences
  | None => sentences
  end.

Definition encode (sentences : list (list Token.t))
    (heads : option (list (list Z))) (deprels : option (list (list string)))
  : string :=
  join "" (map sentence_block
             (override set_deprel deprels (override set_head heads sentences))).

End ConllCodec.

(** The tokens of sentence [i] from token [j] on, with [rows[i][j..]] in
    place of their own values when [rows] is given. *)
Definition override_row {A} (set : A -> Token.t -> Token.t)
    (rows : option (list (list A))) (i j : nat) (tokens : list Token.t)
  : list Token.t :=
  match rows with
  | Some rs => zip_with set (drop j (default [] (rs !! i))) tokens
  | None => tokens
  end.

Definition row_covers {A} (rows : option (list (list A))) (i j : nat)
    (tokens : list Token.t) : Prop :=
  match rows with
  | Some rs => exists row, rs !! i = Some row /\ (j + length tokens <= length row)%nat
  | None => True
  end.

(** The text of the hypothesis file and of the regenerated gold file. *)
Definition hypothesis_text (p : Parsed.t) : string :=
  ConllCodec.encode (Parsed.sentences p)
    (Some (Parsed.heads p)) (Some (Parsed.deprels p)).

Definition gold_text (p : Parsed.t) : string :=
  ConllCodec.encode (Parsed.sentences p) None None.

(** What [exec_eval] makes of the answer of the process. *)
Definition interpret (p : CompletedProcess) : outcome Result.t :=
  obind (decode (if returncode p =? 0 then stdout p else stderr p)) (fun output =>
    if returncode p =? 0 then
      obind (parse_scores output) (fun scores =>
        Ok {| Result.code := returncode p; Result.raw := output;
              Result.UAS := Some (snd scores); Result.LAS := Some (fst scores) |})
    else Ok {| Result.code := returncode p; Result.raw := output;
               Result.UAS := None; Result.LAS := None |}).

(** The space-separated fields of a line, [line.split(' ')]. *)
Definition space_fields (line : string) : list string := split_all " " line.

Section Attempts.

Context {X : Type} (E : Env X).

(** The line that [exec_eval] prints before it starts the process. *)
Definition announce (parsed_file gold_file : string) (show_details : bool) : event :=
  Stderr ("exec command: " +++ join " " (command_line E parsed_file gold_file show_details)).

(** The answer of the process to the call [exec_eval(parsed_file,
    gold_file, show_details)] made in world [w]. *)
Definition answer (parsed_file gold_file : string) (show_details : bool)
    (w : World) : CompletedProcess :=
  subprocess_run E (add_event (announce parsed_file gold_file show_details) w)
    (command_line E parsed_file gold_file show_details).

(** The world after that call. *)
Definition after_call (parsed_file gold_file : string) (show_details : bool)
    (w : World) : World :=
  add_event (Run (command_line E parsed_file gold_file show_details) (files w))
    (add_event (announce parsed_file gold_file show_details) w).

(** The first attempt of [report]: the hypothesis file, the world in which
    the scorer is started on it, and the scorer's answer. *)
Definition hypothesis_file (w : World) : string := tempfile_name E w.

Definition first_world (w : World) : World :=
  set_files (<[hypothesis_file w := hypothesis_text (_parsed w)]> (files w)) w.

Definition first_answer (show_details : bool) (w : World) : CompletedProcess :=
  answer (hypothesis_file w) (_gold_file w) show_details (first_world w).

(** The retry: the regenerated gold file, the world in which the scorer is
    started again, and its answer. *)
Definition gold_file_again (show_details : bool) (w : World) : string :=
  tempfile_name E
    (after_call (hypothesis_file w) (_gold_file w) show_details (first_world w)).

Definition retry_world (show_details : bool) (w : World) : World :=
  let w1 := after_call (hypothesis_file w) (_gold_file w) show_details (first_world w) in
  set_files (<[gold_file_again show_details w := gold_text (_parsed w)]> (files w1)) w1.

Definition retry_answer (show_details : bool) (w : World) : CompletedProcess :=
  answer (hypothesis_file w) (gold_file_again show_details w) show_details
    (retry_world show_details w).

(** A temporary file never takes the name of a file that exists, nor the
    name under which the gold file is configured. *)
Definition fresh_names : Prop :=
  forall w, files w !! tempfile_name E w = None
            /\ tempfile_name E w <> _gold_file w.

(** The scorer is a function of the texts of the two files it is given
    (and of the flag [-q]). *)
Definition deterministic_scorer
    (sc : bool -> option string -> option string -> CompletedProcess) : Prop :=
  forall w parsed_file gold_file show_details,
    subprocess_run E w (command_line E parsed_file gold_file show_details)
    = sc show_details (files w !! parsed_file) (files w !! gold_file).

(** The label that [append] stores for a predicted id. *)
Definition stored_label (d : Z) (l : string) : Prop :=
  (0 < d -> deprel_map_lookup E d = Some l)
  /\ (d <= 0 -> deprel_map_lookup E 0 = Some l).

Definition has_label (d : Z) : Prop :=
  is_Some (deprel_map_lookup E (if 0 <? d then d else 0)).

End Attempts.

(** The accumulated predictions with the scores of [result] stored. *)
Definition with_scores (result : Result.t) (p : Parsed.t) : Parsed.t :=
  {| Parsed.sentences := Parsed.sentences p; Parsed.heads := Parsed.heads p;
     Parsed.deprels := Parsed.deprels p;
     Parsed.UAS := Result.UAS result; Parsed.LAS := Result.LAS result |}.

(** The accumulated predictions after [report], from the way the encoding
    of the hypothesis ended and what the two scoring attempts gave: the scores
    of the first attempt with exit code 0 are stored; without one, or after
    an exception, nothing changes. *)
Definition settled (encoding : outcome unit) (first retry : outcome Result.t)
    (old : Parsed.t) : Parsed.t :=
  match encoding, first with
  | Ok _, Ok r1 =>
      if Result.code r1 =? 0 then with_scores r1 old
      else match retry with
           | Ok r2 => if Result.code r2 =? 0 then with_scores r2 old else old
           | Raise _ => old
           end
  | _, _ => old
  end.

(** The world in which [report] ends when the result it settles on is
    [result] and the world after the last scorer call, the temporary files
    deleted, is [w]: on exit code 0 the scores are stored and the output is
    logged, otherwise only the failure is logged. *)
Definition concluded (result : Result.t) (w : World) : World :=
  if Result.code result =? 0
  then add_event (LogInfo (success_message result))
         (set_parsed (with_scores result (_parsed w)) w)
  else add_event (LogInfo (error_message result)) w.

(** ** A scripted environment, on which the definitions can be run *)

Definition no_answer : CompletedProcess :=
  {| returncode := 1; stdout := ""; stderr := "" |}.

Definition is_run (e : event) : bool :=
  match e with
  | Run _ _ => true
  | _ => false
  end.

(** The number of scorer calls so far. *)
Definition runs (w : World) : nat := length (filter is_run (trace w)).

(** The labels of a small DeprelMap, by id. *)
Definition labels : list string := ["_"; "root"; "nsubj"; "dobj"].

(** The scorer answers its calls with [answers], in order; the parser
    predicts [predictions]; temporary files get unused names. *)
Definition scripted (answers : list CompletedProcess)
    (predictions : list (list Z * list Z)) : Env unit :=
  {| SCRIPT := "/opt/parser/src/common/eval.pl";
     abspath_expanduser := fun path => path;
     tempfile_name := fun w =>
       fresh_string "/tmp/tmp" (<[_gold_file w := ""]> (files w));
     subprocess_run := fun w _ => default no_answer (answers !! runs w);
     parser_parse := fun _ _ _ => predictions;
     deprel_map_lookup := fun d => if d <? 0 then None else labels !! Z.to_nat d |}.

(** A scorer that compares the two files it is given: exit code 0 and a
    fixed report when both exist and are equal, exit code 1 otherwise. *)
Definition comparing (parsed gold : option string) : CompletedProcess :=
  match parsed, gold with
  | Some p, Some g =>
      if String.eqb p g
      then {| returncode := 0;
              stdout := "  Labeled   attachment score: 5 / 5 * 100 = 100.00 %" +++ NL
                        +++ "  Unlabeled attachment score: 5 / 5 * 100 = 100.00 %" +++ NL;
              stderr := "" |}
      else no_answer
  | _, _ => no_answer
  end.

Definition comparing_env : Env unit :=
  {| SCRIPT := "/opt/parser/src/common/eval.pl";
     abspath_expanduser := fun path => path;
     tempfile_name := fun w =>
       fresh_string "/tmp/tmp" (<[_gold_file w := ""]> (files w));
     subprocess_run := fun w command =>
       match command with
       | _ :: _ :: _ :: gold :: _ :: parsed :: _ =>
           comparing (files w !! parsed) (files w !! gold)
       | _ => no_answer
       end;
     parser_parse := fun _ _ _ => [];
     deprel_map_lookup := fun d => if d <? 0 then None else labels !! Z.to_nat d |}.

(** Answers of the scorer: the report of [eval.pl -q], the two lines of the
    specification's scenario as it states them and with one more field, a
    report without text, and a process that was killed. *)
Definition eval_pl_report : CompletedProcess :=
  {| returncode := 0;
     stdout := "  Labeled   attachment score: 441 / 500 * 100 = 88.20 %" +++ NL
               +++ "  Unlabeled attachment score: 457 / 500 * 100 = 91.40 %" +++ NL
               +++ "  Label accuracy score:       460 / 500 * 100 = 92.00 %" +++ NL;
     stderr := "" |}.

Definition scenario_report : CompletedProcess :=
  {| returncode := 0;
     stdout := "Labeled   attachment score: 88.2 %" +++ NL
               +++ "Unlabeled attachment score: 91.4 %" +++ NL;
     stderr := "" |}.


Definition scenario_as_stated : CompletedProcess :=
  {| returncode := 0;
     stdout := "Labeled   attachment score: 88.2" +++ NL
               +++ "Unlabeled attachment score: 91.4" +++ NL;
     stderr := "" |}.

Definition empty_report : CompletedProcess :=
  {| returncode := 0; stdout := ""; stderr := "" |}.

(** A new evaluator, as [Evaluator.__init__] leaves it, in front of a disk. *)
Definition initial (gold_file : string) (disk : gmap string string) : World :=
  {| _gold_file := gold_file;
     _parsed := {| Parsed.sentences := []; Parsed.heads := [];
                   Parsed.deprels := [];
                   Parsed.UAS := None; Parsed.LAS := None |};
     files := disk;
     trace := [] |}.

(** The sentence of the specification's scenario. *)
Definition dog : Token.t :=
  {| Token.id := 1; Token.form := "Dog"; Token.lemma := "dog";
     Token.cpostag := "NOUN"; Token.postag := "NN"; Token.feats := "_";
     Token.head := 2; Token.deprel := "nsubj";
     Token.phead := "_"; Token.pdeprel := "_" |}.

Definition barks : Token.t :=
  {| Token.id := 2; Token.form := "barks"; Token.lemma := "bark";
     Token.cpostag := "VERB"; Token.postag := "VBZ"; Token.feats := "_";
     Token.head := 0; Token.deprel := "root";
     Token.phead := "_"; Token.pdeprel := "_" |}.

Definition root_token : Token.t :=
  {| Token.id := 0; Token.form := "<ROOT>"; Token.lemma := "<ROOT>";
     Token.cpostag := "ROOT"; Token.postag := "ROOT"; Token.feats := "_";
     Token.head := 0; Token.deprel := "root";
     Token.phead := "_"; Token.pdeprel := "_" |}.

(** ** Proof steps that recur *)

(** The file that was just written holds what was written. *)
Ltac just_written := cbn [set_files files]; apply lookup_insert_eq.

(** A property of [concluded] that holds on both exit paths. *)
Ltac by_exit_code r := unfold concluded; now destruct (Result.code r =? 0).

(** ** Further notions: what [write_conll] needs of its arguments *)

(** The value printed for token [j] of sentence [i]: [rows[i][j]] when
    [rows] is given, the token's own value when it is [None]; nothing where
    the index is out of range. *)
Definition picked {A} (rows : option (list (list A))) (i j : nat) (own : A)
  : option A :=
  match rows with
  | Some rs => match rs !! i with
               | Some row => row !! j
               | None => None
               end
  | None => Some own
  end.

(** [rows[i]] is long enough for the tokens of sentence [i] from token [j]
    on; of a sentence without tokens nothing is asked. *)
Definition fits {A} (rows : option (list (list A))) (i j : nat)
    (tokens : list Token.t) : bool :=
  match tokens, rows with
  | [], _ => true
  | _ :: _, None => true
  | _ :: _, Some rs =>
      match rs !! i with
      | Some row => (j + length tokens <=? length row)%nat
      | None => false
      end
  end.

(** Every sentence from number [i] on is fitted. *)
Fixpoint indexable {A} (rows : option (list (list A))) (i : nat)
    (sentences : list (list Token.t)) : bool :=
  match sentences with
  | [] => true
  | tokens :: rest => fits rows i 0 tokens && indexable rows (S i) rest
  end.

(** The three accumulated sequences have one length, and the predictions of
    every sentence reach its last token. *)
Definition aligned (p : Parsed.t) : bool :=
  (length (Parsed.heads p) =? length (Parsed.sentences p))%nat
  && (length (Parsed.deprels p) =? length (Parsed.sentences p))%nat
  && parallel p.

(** A batch whose predictions are as many as its sentences and reach the
    last token of each. *)
Definition well_shaped (sentences : list (list Token.t))
    (parsed : list (list Z * list Z)) : Prop :=
  Forall2 (fun tokens prediction =>
             (length tokens <= length (fst prediction))%nat
             /\ (length tokens <= length (snd prediction))%nat)
    sentences parsed.

Definition is_log (e : event) : bool :=
  match e with
  | LogInfo _ => true
  | _ => false
  end.

(** The number of messages logged so far. *)
Definition logs (w : World) : nat := length (filter is_log (trace w)).

(** A field that holds neither a tab nor a newline. *)
Definition plain (s : string) : bool :=
  negb (contains "009" s) && negb (contains "010" s).

(** A token whose text fields are plain. *)
Definition plain_token (t : Token.t) : bool :=
  forallb plain
    [ Token.form t; Token.lemma t; Token.cpostag t; Token.postag t;
      Token.feats t; Token.deprel t; Token.phead t; Token.pdeprel t ].

(** A text read as a table: its lines, each cut at the tabs. *)
Definition table (text : string) : list (list string) :=
  map (split_all "009") (split_all "010" text).

(** The report of [eval.pl] without [-q]: the same first lines, then the
    details. *)
Definition eval_pl_details : CompletedProcess :=
  {| returncode := 0;
     stdout := "  Labeled   attachment score: 441 / 500 * 100 = 88.20 %" +++ NL
               +++ "  Unlabeled attachment score: 457 / 500 * 100 = 91.40 %" +++ NL
               +++ "  Label accuracy score:       460 / 500 * 100 = 92.00 %" +++ NL
               +++ NL
               +++ "  Evaluation of the results in /tmp/tmp" +++ NL;
     stderr := "" |}.

(** The accumulated predictions can be encoded as a hypothesis. *)
Definition encodable (p : Parsed.t) : bool :=
  indexable (Some (Parsed.heads p)) 0 (Parsed.sentences p)
  && indexable (Some (Parsed.deprels p)) 0 (Parsed.sentences p).

(** A scorer that fails with diagnostics in Latin-1: the byte 233 alone is
    not UTF-8. *)
Definition garbled : CompletedProcess :=
  {| returncode := 2; stdout := "";
     stderr := "Can't open fichier cl" +++ String "233"%char "" |}.

(** ** [main.test]: the evaluation of a saved model *)

(** A batch of the test set, column-wise: the input columns before the
    tokens, the tokens ([xs[-1]]) and the targets ([batch[-1]]). *)
Record TestBatch (X T : Type) := {
  batch_inputs : list X;
  batch_tokens : list (list Token.t);
  batch_ts : list T;
}.
Arguments batch_inputs {X T} _.
Arguments batch_tokens {X T} _.
Arguments batch_ts {X T} _.

(** What [test] acts on: the evaluator it creates, in front of the disk and
    the trace, and the progress bar, as the arguments [pbar.update] was called
    with, in order. *)
Definition TestState : Type := World * list nat.

Section Test.

Context {X T : Type} (E : Env X).

(** [model.parse( *xs)]: in [test] the parser is given every column of
    [xs], the tokens included, and no [use_cache]. *)
Variable model_parse : World -> list X -> list (list Token.t) -> list (list Z * list Z).

(** The body of the loop. *)
Definition test_batch (batch : TestBatch X T) (st : TestState)
  : outcome unit * TestState :=
  let parsed := model_parse (fst st) (batch_inputs batch) (batch_tokens batch) in
  match append E (map (drop 1) (batch_tokens batch)) parsed (fst st) with
  | (Ok _, w) => (Ok tt, (w, (snd st ++ [length (batch_ts batch)])%list))
  | (Raise e, w) => (Raise e, (w, snd st))
  end.

(** [for batch in test_dataset.batch(...)]. *)
Fixpoint test_batches (batches : list (TestBatch X T)) (st : TestState)
  : outcome unit * TestState :=
  match batches with
  | [] => (Ok tt, st)
  | batch :: rest =>
      match test_batch batch st with
      | (Ok _, st') => test_batches rest st'
      | (Raise e, st') => (Raise e, st')
      end
  end.

(** [test] from the creation of the progress bar and of the evaluator on,
    the test set loaded and cut into [batches]. *)
Definition test (test_file : string) (batches : list (TestBatch X T))
    (w : World) : outcome unit * TestState :=
  match test_batches batches (snd (set_gold E test_file w), []) with
  | (Ok _, (w1, updates)) =>
      (fst (report E false w1), (snd (report E false w1), updates))
  | (Raise e, st) => (Raise e, st)
  end.

End Test.

(** The predictions of a batch are as [append] needs them: there is at
    least one, they are as many as the sentences and reach the last token of
    each without its first token, and the map knows their ids. *)
Definition usable {X : Type} (E : Env X) (tokens : list (list Token.t))
    (parsed : list (list Z * list Z)) : Prop :=
  parsed <> []
  /\ well_shaped (map (drop 1) tokens) parsed
  /\ Forall (Forall (has_label E)) (map snd parsed).

(** The predictions for a batch are usable in whatever state the parser is
    asked. *)
Definition usable_batch {X T : Type} (E : Env X)
    (model_parse : World -> list X -> list (list Token.t) -> list (list Z * list Z))
    (batch : TestBatch X T) : Prop :=
  forall w, usable E (batch_tokens batch)
              (model_parse w (batch_inputs batch) (batch_tokens batch)).

(** The sentences that the loop of [test] gives to the evaluator: those of
    every batch, each without its first token. *)
Definition evaluated {X T : Type} (batches : list (TestBatch X T))
  : list (list Token.t) :=
  concat (map (fun batch => map (drop 1) (batch_tokens batch)) batches).

(** The updates of the progress bar for [batches]: the size of each. *)
Definition updates {X T : Type} (batches : list (TestBatch X T)) : list nat :=
  map (fun batch => length (batch_ts batch)) batches.
(* ===================================================================== *)
(** * Part II: properties *)
(* ===================================================================== *)

(** ** The string operations on examples *)

Example split_lines :
  split "010" 2 ("a" +++ String "010" "b" +++ String "010" "c" +++ String "010" "d")
  = ["a"; "b"; "c" +++ String "010" "d"].
Proof. reflexivity. Qed.

Example rsplit_spaces : rsplit " " 2 "  a b c " = ["  a b"; "c"; ""].
Proof. reflexivity. Qed.

Example str_of_int_ex : str_of_int (-5) = "-5" /\ str_of_int 0 = "0".
Proof. split; reflexivity. Qed.

Example rstrip_ex :
  Unicode.rstrip ("ab " +++ String "028" (String "194" (String "160" (String "010" ""))))
  = "ab".
Proof. reflexivity. Qed.

Example decode_rejects_overlong :
  Unicode.decode (String "192" (String "128" "")) = None
  /\ Unicode.decode (String "237" (String "160" (String "128" ""))) = None
  /\ Unicode.decode (String "244" (String "144" (String "128" (String "128" "")))) = None
  /\ Unicode.decode (String "237" (String "159" (String "191" "")))
     = Some (String "237" (String "159" (String "191" ""))).
Proof. repeat split; reflexivity. Qed.

(** ** [float] on examples: the values are those CPython computes *)

Example float_88_2 :
  PyFloat.float "88.2" = Some (S754_finite false 0x160ccccccccccd (-46)).
Proof. vm_compute. reflexivity. Qed.

Example float_examples :
  PyFloat.float " 88.2 " = PyFloat.float "88.2"
  /\ PyFloat.float "88.20" = PyFloat.float "88.2"
  /\ PyFloat.float "1e5" = Some (S754_finite false 0x186a0000000000 (-36))
  /\ PyFloat.float "1_000.5" = Some (S754_finite false 0x1f440000000000 (-43))
  /\ PyFloat.float "-Infinity" = Some (S754_infinity true)
  /\ PyFloat.float "1e400" = Some (S754_infinity false)
  /\ PyFloat.float "5e-324" = Some (S754_finite false 1 (-1074))
  /\ PyFloat.float "nan" = Some S754_nan.
Proof. vm_compute. repeat split; reflexivity. Qed.

Example float_rejects :
  PyFloat.float "score:" = None
  /\ PyFloat.float "%" = None
  /\ PyFloat.float "" = None
  /\ PyFloat.float "1e" = None
  /\ PyFloat.float "1_" = None
  /\ PyFloat.float "0x10" = None
  /\ PyFloat.float "1 2" = None.
Proof. vm_compute. repeat split; reflexivity. Qed.

(** ** Strings *)

Lemma append_cons (c : ascii) (s t : string) :
  String c s +++ t = String c (s +++ t).
Proof. reflexivity. Qed.

Lemma append_empty_r (s : string) : s +++ "" = s.
Proof.
  induction s as [|c s IH]; [reflexivity|]. now rewrite append_cons, IH.
Qed.

Lemma append_assoc (a b c : string) : (a +++ b) +++ c = a +++ (b +++ c).
Proof.
  induction a as [|x a IH]; [reflexivity|]. now rewrite !append_cons, IH.
Qed.

Lemma join_empty_cons (x : string) (l : list string) :
  join "" (x :: l) = x +++ join "" l.
Proof. destruct l; simpl; [now rewrite append_empty_r | reflexivity]. Qed.

Lemma join_empty_app (l1 l2 : list string) :
  join "" (l1 ++ l2)%list = join "" l1 +++ join "" l2.
Proof.
  induction l1 as [|x l1 IH]; [reflexivity|].
  rewrite <- app_comm_cons, !join_empty_cons, IH. now rewrite append_assoc.
Qed.

(** ** Splitting and joining *)

Section Splitting.

Variable sep : ascii.

Lemma reverse_app (a b : string) : reverse (a +++ b) = reverse b +++ reverse a.
Proof.
  induction a as [|c a IH]; cbn [reverse].
  - now rewrite append_empty_r.
  - rewrite append_cons. cbn [reverse]. now rewrite IH, append_assoc.
Qed.

Lemma reverse_involutive (s : string) : reverse (reverse s) = s.
Proof.
  induction s as [|c s IH]; [reflexivity|].
  cbn [reverse]. now rewrite reverse_app, IH.
Qed.

Lemma contains_app (a b : string) :
  contains sep (a +++ b) = contains sep a || contains sep b.
Proof.
  induction a as [|c a IH]; [reflexivity|].
  rewrite append_cons. cbn [contains]. now rewrite IH, orb_assoc.
Qed.

Lemma contains_reverse (s : string) : contains sep (reverse s) = contains sep s.
Proof.
  induction s as [|c s IH]; [reflexivity|].
  cbn [reverse contains]. rewrite contains_app, IH. cbn [contains].
  now rewrite orb_false_r, orb_comm.
Qed.

Lemma split_not_nil n (s : string) : split sep n s <> [].
Proof.
  destruct s as [|c s]; [discriminate|].
  destruct n as [|n]; [discriminate|]. cbn [split].
  destruct (Ascii.eqb c sep); [discriminate|].
  destruct (split sep (S n) s); discriminate.
Qed.

Lemma join_cons_cons (d a b : string) (l : list string) :
  join d (a :: b :: l) = a +++ d +++ join d (b :: l).
Proof. reflexivity. Qed.

(** Joining the pieces with the separator gives the text back. *)
Lemma join_split n (s : string) : join (String sep "") (split sep n s) = s.
Proof.
  revert n. induction s as [|c s IH]; intros n; [reflexivity|].
  destruct n as [|n]; [reflexivity|]. cbn [split].
  destruct (Ascii.eqb_spec c sep) as [->|Hne].
  - specialize (IH n). destruct (split sep n s) as [|p ps] eqn:Hs.
    + now apply split_not_nil in Hs.
    + now rewrite join_cons_cons, IH.
  - specialize (IH (S n)). destruct (split sep (S n) s) as [|p ps] eqn:Hs.
    + now apply split_not_nil in Hs.
    + destruct ps as [|q qs].
      * cbn [join] in *. now rewrite IH.
      * rewrite join_cons_cons in *. now rewrite append_cons, IH.
Qed.

(** A text without the separator is its own single piece. *)
Lemma split_free n (a : string) : contains sep a = false -> split sep n a = [a].
Proof.
  revert n. induction a as [|c a IH]; intros n Ha; [reflexivity|].
  cbn [contains] in Ha. apply orb_false_iff in Ha as [Hc Ha].
  destruct n as [|n]; [reflexivity|]. cbn [split]. now rewrite Hc, IH.
Qed.

(** The first cut falls at the first separator. *)
Lemma split_free_app n (a b : string) :
  contains sep a = false ->
  split sep (S n) (a +++ String sep b) = a :: split sep n b.
Proof.
  induction a as [|c a IH]; intros Ha.
  - change ("" +++ String sep b) with (String sep b). cbn [split].
    now rewrite Ascii.eqb_refl.
  - cbn [contains] in Ha. apply orb_false_iff in Ha as [Hc Ha].
    rewrite append_cons. cbn [split]. now rewrite Hc, IH.
Qed.

(** With as many cuts allowed as the text has characters, no piece holds a
    separator. *)
Lemma split_pieces_free n (s : string) :
  (String.length s <= n)%nat ->
  Forall (fun p => contains sep p = false) (split sep n s).
Proof.
  revert n. induction s as [|c s IH]; intros n Hn.
  - now repeat constructor.
  - destruct n as [|n]; [cbn in Hn; lia|]. cbn in Hn. cbn [split].
    destruct (Ascii.eqb c sep) eqn:Hc.
    + constructor; [reflexivity|]. apply IH. lia.
    + assert (H := IH (S n) ltac:(lia)).
      destruct (split sep (S n) s) as [|p ps]; [now repeat constructor; cbn; rewrite Hc|].
      inversion H; subst. constructor; [|assumption]. cbn [contains].
      now rewrite Hc.
Qed.

(** More cuts allowed than characters changes nothing. *)
Lemma split_enough n (s : string) :
  (String.length s <= n)%nat -> split sep n s = split_all sep s.
Proof.
  unfold split_all. revert n. induction s as [|c s IH]; intros n Hn; [reflexivity|].
  destruct n as [|n]; [cbn in Hn; lia|]. cbn in Hn.
  cbn [split String.length].
  destruct (Ascii.eqb c sep).
  - now rewrite (IH n) by lia.
  - now rewrite (IH (S n)), <- (IH (S (String.length s))) by lia.
Qed.

(** The first [n] pieces do not depend on how many more cuts are allowed. *)
Lemma take_split n m (s : string) :
  (n <= m)%nat -> take n (split sep n s) = take n (split sep m s).
Proof.
  revert n m. induction s as [|c s IH]; intros n m Hnm.
  - now destruct n, m.
  - destruct n as [|n]; [reflexivity|].
    destruct m as [|m]; [lia|]. cbn [split].
    destruct (Ascii.eqb c sep).
    + cbn [take]. f_equal. apply IH. lia.
    + assert (H := IH (S n) (S m) ltac:(lia)).
      destruct (split sep (S n) s) as [|p ps] eqn:Hp;
        [now apply split_not_nil in Hp|].
      destruct (split sep (S m) s) as [|q qs] eqn:Hq;
        [now apply split_not_nil in Hq|].
      cbn [take] in *. now injection H as -> ->.
Qed.

Lemma take_split_all n (s : string) :
  take n (split sep n s) = take n (split_all sep s).
Proof.
  destruct (Nat.le_gt_cases n (String.length s)) as [H|H].
  - now apply take_split.
  - rewrite split_enough by lia. reflexivity.
Qed.

(** A text that ends in the two pieces [v] and [x]: what precedes them is
    empty or ends with the separator. *)
Lemma join_two_last (ps : list string) (v x : string) :
  exists P, join (String sep "") (ps ++ [v; x])%list = P +++ v +++ String sep x
            /\ (P = "" \/ exists Q, P = Q +++ String sep "").
Proof.
  induction ps as [|p ps (P & HP & Hshape)].
  - exists "". split; [reflexivity | now left].
  - exists (p +++ String sep "" +++ P). split.
    + rewrite <- app_comm_cons.
      destruct (ps ++ [v; x])%list as [|q qs] eqn:Hq.
      { now destruct ps. }
      rewrite join_cons_cons, HP. now rewrite !append_assoc.
    + right. destruct Hshape as [->|(Q & ->)].
      * exists p. now rewrite append_empty_r.
      * exists (p +++ String sep "" +++ Q). now rewrite !append_assoc.
Qed.

(** [rsplit] with two cuts on such a text: the last but one piece is [v]. *)
Lemma rsplit_two_last (P v x : string) :
  contains sep v = false -> contains sep x = false ->
  P = "" \/ (exists Q, P = Q +++ String sep "") ->
  index_neg2 (rsplit sep 2 (P +++ v +++ String sep x)) = Ok v.
Proof.
  intros Hv Hx Hshape. unfold rsplit.
  rewrite !reverse_app. cbn [reverse]. change ("" +++ String sep "") with (String sep "").
  rewrite !append_assoc. change (String sep "" +++ reverse v +++ reverse P)
    with (String sep (reverse v +++ reverse P)).
  rewrite split_free_app by now rewrite contains_reverse.
  destruct Hshape as [->|(Q & ->)].
  - cbn [reverse]. rewrite append_empty_r.
    rewrite split_free by now rewrite contains_reverse.
    cbn. now rewrite reverse_involutive.
  - rewrite reverse_app. cbn [reverse].
    change (("" +++ String sep "") +++ reverse Q) with (String sep (reverse Q)).
    rewrite split_free_app by now rewrite contains_reverse.
    assert (H0 : split sep 0 (reverse Q) = [reverse Q]) by now destruct (reverse Q).
    rewrite H0. cbn. now rewrite reverse_involutive.
Qed.

(** The last but one of the separated fields of a line is what
    [line.rsplit(sep, 2)[-2]] picks. *)
Lemma rsplit_second_to_last (line : string) (ps : list string) (v x : string) :
  split_all sep line = (ps ++ [v; x])%list ->
  index_neg2 (rsplit sep 2 line) = Ok v.
Proof.
  intros Hsplit.
  assert (Hfree : Forall (fun p => contains sep p = false) (ps ++ [v; x])%list).
  { rewrite <- Hsplit. now apply split_pieces_free. }
  apply Forall_app in Hfree as [_ Hfree].
  inversion Hfree as [|? ? Hv Hfree']; subst.
  inversion Hfree' as [|? ? Hx _]; subst.
  destruct (join_two_last ps v x) as (P & HP & Hshape).
  rewrite <- (join_split (String.length line) line).
  fold (split_all sep line). rewrite Hsplit, HP.
  now apply rsplit_two_last.
Qed.

End Splitting.

Section Lines.

Variable sep : ascii.

Lemma length_append (a b : string) :
  String.length (a +++ b) = (String.length a + String.length b)%nat.
Proof.
  induction a as [|c a IH]; [reflexivity|].
  rewrite append_cons. cbn [String.length]. now rewrite IH.
Qed.

(** The first piece of a text is what stands before its first separator. *)
Lemma split_all_cons (a b : string) :
  contains sep a = false ->
  split_all sep (a +++ String sep b) = a :: split_all sep b.
Proof.
  intros Ha. unfold split_all at 1.
  rewrite length_append. cbn [String.length].
  rewrite Nat.add_succ_r, split_free_app by assumption.
  f_equal. apply split_enough. lia.
Qed.

(** Splitting undoes joining, for pieces without the separator. *)
Lemma split_all_join (p : string) (ps : list string) :
  Forall (fun q => contains sep q = false) (p :: ps) ->
  split_all sep (join (String sep "") (p :: ps)) = p :: ps.
Proof.
  revert p. induction ps as [|q qs IH]; intros p Hfree.
  - cbn [join]. inversion Hfree; subst. unfold split_all. now apply split_free.
  - inversion Hfree; subst. rewrite join_cons_cons.
    change (String sep "" +++ join (String sep "") (q :: qs))
      with (String sep (join (String sep "") (q :: qs))).
    rewrite split_all_cons by assumption. f_equal. now apply IH.
Qed.

(** A text made of lines, each closed by the separator, splits into these
    lines and the empty rest after the last of them. *)
Lemma split_all_closed_lines (ls : list string) :
  Forall (fun l => contains sep l = false) ls ->
  split_all sep (join "" (map (fun l => l +++ String sep "") ls))
  = (ls ++ [""])%list.
Proof.
  induction 1 as [|l ls Hl _ IH]; [reflexivity|].
  rewrite map_cons, join_empty_cons, append_assoc.
  change (String sep "" +++ join "" (map (fun l0 => l0 +++ String sep "") ls))
    with (String sep (join "" (map (fun l0 => l0 +++ String sep "") ls))).
  rewrite split_all_cons by assumption. now rewrite IH.
Qed.

End Lines.

(** ** The encoder: [write_conll] *)

Section WriteConll.

Lemma bind_ok {A B} (m : M A) (k : A -> M B) w a w' :
  m w = (Ok a, w') -> bind m k w = k a w'.
Proof. unfold bind. now intros ->. Qed.

Lemma bind_raise {A B} (m : M A) (k : A -> M B) w e w' :
  m w = (Raise e, w') -> bind m k w = (Raise e, w').
Proof. unfold bind. now intros ->. Qed.

Lemma row_covers_tail {A} (rows : option (list (list A))) i j token rest :
  row_covers rows i j (token :: rest) -> row_covers rows i (S j) rest.
Proof.
  destruct rows as [rs|]; simpl; [|trivial].
  intros (row & Hi & Hl). exists row. split; [assumption | lia].
Qed.

(** The line of a token is the line of the token with the given values in
    place of its own. *)
Lemma conll_line_given (token : Token.t) rest i j heads deprels :
  row_covers heads i j (token :: rest) -> row_covers deprels i j (token :: rest) ->
  exists t',
    conll_line token i j heads deprels = Ok (join TAB (ConllCodec.fields t'))
    /\ override_row set_deprel deprels i j
         (override_row set_head heads i j (token :: rest))
       = t' :: override_row set_deprel deprels i (S j)
                 (override_row set_head heads i (S j) rest).
Proof.
  intros Hh Hd.
  destruct heads as [hs|], deprels as [ds|]; simpl in *.
  - destruct Hh as (hrow & Hhi & Hhl), Hd as (drow & Hdi & Hdl).
    destruct (lookup_lt_is_Some_2 hrow j) as [h Hh']; [lia|].
    destruct (lookup_lt_is_Some_2 drow j) as [d Hd']; [lia|].
    exists (set_deprel d (set_head h token)).
    unfold conll_line, index. rewrite Hhi, Hdi. simpl. rewrite Hh', Hd'. simpl.
    split; [reflexivity|].
    now rewrite (drop_S _ _ _ Hh'), (drop_S _ _ _ Hd').
  - destruct Hh as (hrow & Hhi & Hhl).
    destruct (lookup_lt_is_Some_2 hrow j) as [h Hh']; [lia|].
    exists (set_head h token).
    unfold conll_line, index. rewrite Hhi. simpl. rewrite Hh'. simpl.
    split; [reflexivity|]. now rewrite (drop_S _ _ _ Hh').
  - destruct Hd as (drow & Hdi & Hdl).
    destruct (lookup_lt_is_Some_2 drow j) as [d Hd']; [lia|].
    exists (set_deprel d token).
    unfold conll_line, index. rewrite Hdi. simpl. rewrite Hd'. simpl.
    split; [reflexivity|]. now rewrite (drop_S _ _ _ Hd').
  - exists token. split; reflexivity.
Qed.

Lemma write_spec (f text : string) (w : World) old :
  files w !! f = Some old ->
  write f text w = (Ok tt, set_files (<[f := old +++ text]> (files w)) w).
Proof. intros H. unfold write, modify. now rewrite H. Qed.

(** The inner loop adds the lines of the tokens to the file. *)
Lemma write_tokens_spec (f : string) i heads deprels tokens :
  forall j w old,
    files w !! f = Some old ->
    row_covers heads i j tokens -> row_covers deprels i j tokens ->
    write_tokens f i j tokens heads deprels w
    = (Ok tt,
       set_files (<[f := old +++ join "" (map ConllCodec.token_line
                          (override_row set_deprel deprels i j
                             (override_row set_head heads i j tokens)))]>
                    (files w)) w).
Proof.
  induction tokens as [|token rest IH]; intros j w old Hf Hh Hd.
  - assert (Hnil : override_row set_deprel deprels i j
                     (override_row set_head heads i j []) = []).
    { destruct heads, deprels; simpl; try reflexivity;
        now rewrite ?zip_with_nil_r. }
    rewrite Hnil. simpl. rewrite append_empty_r, insert_id by assumption.
    now destruct w.
  - destruct (conll_line_given token rest i j heads deprels Hh Hd)
      as (t' & Hline & Hover).
    rewrite Hover. simpl write_tokens.
    rewrite (bind_ok _ _ w _ w) by (unfold lift; now rewrite Hline).
    rewrite (bind_ok _ _ _ _ _ (write_spec f _ w old Hf)).
    rewrite (IH (S j) _ (old +++ join TAB (ConllCodec.fields t') +++ NL)).
    + rewrite map_cons, join_empty_cons. unfold ConllCodec.token_line at 2.
      cbn [set_files files]. rewrite insert_insert_eq, !append_assoc.
      reflexivity.
    + just_written.
    + eapply row_covers_tail; eassumption.
    + eapply row_covers_tail; eassumption.
Qed.

Lemma covers_cons {A} (rows : option (list (list A))) i tokens rest :
  covers_if_given (drop i <$> rows) (tokens :: rest) = true ->
  row_covers rows i 0 tokens
  /\ covers_if_given (drop (S i) <$> rows) rest = true.
Proof.
  destruct rows as [rs|]; simpl; [|auto].
  destruct (drop i rs) as [|row rows'] eqn:Hdrop; [discriminate|].
  intros [Hlen Hrest]%andb_true_iff. apply Nat.leb_le in Hlen.
  assert (Hi : rs !! i = Some row).
  { rewrite <- (Nat.add_0_r i), <- lookup_drop, Hdrop. reflexivity. }
  split.
  - exists row. split; [assumption | lia].
  - rewrite (drop_S _ _ _ Hi) in Hdrop. injection Hdrop as <-. assumption.
Qed.

Lemma override_cons {A} (set : A -> Token.t -> Token.t)
    (rows : option (list (list A))) i tokens rest tokens' rest' :
  covers_if_given (drop i <$> rows) (tokens :: rest) = true ->
  ConllCodec.override set (drop i <$> rows) (tokens' :: rest')
  = override_row set rows i 0 tokens'
    :: ConllCodec.override set (drop (S i) <$> rows) rest'.
Proof.
  destruct rows as [rs|]; simpl; [|reflexivity].
  destruct (drop i rs) as [|row rows'] eqn:Hdrop; [discriminate|].
  intros _.
  assert (Hi : rs !! i = Some row).
  { rewrite <- (Nat.add_0_r i), <- lookup_drop, Hdrop. reflexivity. }
  rewrite (drop_S _ _ _ Hi) in Hdrop. injection Hdrop as <-.
  now rewrite Hi.
Qed.

(** The outer loop adds the blocks of the sentences to the file. *)
Lemma write_sentences_spec (f : string) heads deprels sentences :
  forall i w old,
    files w !! f = Some old ->
    covers_if_given (drop i <$> heads) sentences = true ->
    covers_if_given (drop i <$> deprels) sentences = true ->
    write_sentences f i sentences heads deprels w
    = (Ok tt,
       set_files (<[f := old +++ join "" (map ConllCodec.sentence_block
                          (ConllCodec.override set_deprel (drop i <$> deprels)
                             (ConllCodec.override set_head (drop i <$> heads)
                                sentences)))]>
                    (files w)) w).
Proof.
  induction sentences as [|tokens rest IH]; intros i w old Hf Hh Hd.
  - assert (Hnil : ConllCodec.override set_deprel (drop i <$> deprels)
                     (ConllCodec.override set_head (drop i <$> heads) []) = []).
    { destruct heads, deprels; simpl; try reflexivity;
        now rewrite ?zip_with_nil_r. }
    rewrite Hnil. cbn [map join write_sentences ret].
    rewrite append_empty_r, insert_id by assumption. now destruct w.
  - destruct (covers_cons heads i tokens rest Hh) as [Hh0 Hh'].
    destruct (covers_cons deprels i tokens rest Hd) as [Hd0 Hd'].
    rewrite (override_cons set_head heads i tokens rest tokens rest Hh).
    rewrite (override_cons set_deprel deprels i tokens rest _ _ Hd).
    cbn [write_sentences].
    rewrite (bind_ok _ _ _ _ _ (write_tokens_spec f i heads deprels tokens 0 w old Hf Hh0 Hd0)).
    erewrite bind_ok; cycle 1.
    { apply write_spec. just_written. }
    erewrite IH; cycle 1.
    { just_written. }
    { assumption. }
    { assumption. }
    cbn [set_files files]. rewrite !insert_insert_eq.
    rewrite map_cons, join_empty_cons. unfold ConllCodec.sentence_block at 2.
    now rewrite !append_assoc.
Qed.
End WriteConll.


Section WriteConllRun.

(** Whatever the arguments, the loops behave the same on every open file:
    they add the same text and end the same way. *)
Lemma write_tokens_run i heads deprels tokens :
  forall j, exists o text, forall f w old,
    files w !! f = Some old ->
    write_tokens f i j tokens heads deprels w
    = (o, set_files (<[f := old +++ text]> (files w)) w).
Proof.
  induction tokens as [|token rest IH]; intros j.
  - exists (Ok tt), "". intros f w old Hf. cbn [write_tokens ret].
    rewrite append_empty_r, insert_id by assumption. now destruct w.
  - destruct (conll_line token i j heads deprels) as [line|e] eqn:Hline.
    + destruct (IH (S j)) as (o & text & Hrest).
      exists o, (line +++ NL +++ text). intros f w old Hf.
      cbn [write_tokens].
      rewrite (bind_ok _ _ w _ w) by (unfold lift; now rewrite Hline).
      rewrite (bind_ok _ _ _ _ _ (write_spec f _ w old Hf)).
      rewrite (Hrest f _ (old +++ line +++ NL)).
      * cbn [set_files files]. now rewrite insert_insert_eq, !append_assoc.
      * just_written.
    + exists (Raise e), "". intros f w old Hf.
      cbn [write_tokens].
      rewrite (bind_raise _ _ w e w) by (unfold lift; now rewrite Hline).
      rewrite append_empty_r, insert_id by assumption. now destruct w.
Qed.

Lemma write_sentences_run heads deprels sentences :
  forall i, exists o text, forall f w old,
    files w !! f = Some old ->
    write_sentences f i sentences heads deprels w
    = (o, set_files (<[f := old +++ text]> (files w)) w).
Proof.
  induction sentences as [|tokens rest IH]; intros i.
  - exists (Ok tt), "". intros f w old Hf. cbn [write_sentences ret].
    rewrite append_empty_r, insert_id by assumption. now destruct w.
  - destruct (write_tokens_run i heads deprels tokens 0) as ([[]|e] & text & Htok).
    + destruct (IH (S i)) as (o & text' & Hrest).
      exists o, (text +++ NL +++ text'). intros f w old Hf.
      cbn [write_sentences].
      rewrite (bind_ok _ _ _ _ _ (Htok f w old Hf)).
      erewrite bind_ok; cycle 1.
      { apply write_spec. just_written. }
      erewrite Hrest; cycle 1.
      { just_written. }
      cbn [set_files files]. now rewrite !insert_insert_eq, !append_assoc.
    + exists (Raise e), text. intros f w old Hf.
      cbn [write_sentences].
      now rewrite (bind_raise _ _ _ _ _ (Htok f w old Hf)).
Qed.

Lemma write_conll_run sentences heads deprels :
  exists o text, forall f w old,
    files w !! f = Some old ->
    write_conll f sentences heads deprels w
    = (o, set_files (<[f := old +++ text]> (files w)) w).
Proof.
  destruct (write_sentences_run heads deprels sentences 0) as ([[]|e] & text & H).
  - exists (Ok tt), text. intros f w old Hf. unfold write_conll.
    now rewrite (bind_ok _ _ _ _ _ (H f w old Hf)).
  - exists (Raise e), text. intros f w old Hf. unfold write_conll.
    now rewrite (bind_raise _ _ _ _ _ (H f w old Hf)).
Qed.

End WriteConllRun.

(** C4. [write_conll] adds to the file the encoding that the specification
    describes: for every sentence one line per token, made of the ten fields
    id, form, lemma, cpostag, postag, feats, head, deprel, phead, pdeprel
    joined by tabs, and then one empty line; the head and deprel fields are
    the given [heads[i][j]] and [deprels[i][j]] when the arguments are
    supplied (and cover every token), the token's own when they are [None]. *)
Theorem write_conll_encodes (writer : string) (sentences : list (list Token.t))
    (heads : option (list (list Z))) (deprels : option (list (list string)))
    (w : World) (old : string) :
  files w !! writer = Some old ->
  covers_if_given heads sentences = true ->
  covers_if_given deprels sentences = true ->
  write_conll writer sentences heads deprels w
  = (Ok tt,
     set_files (<[writer := old +++ ConllCodec.encode sentences heads deprels]>
                  (files w)) w).
Proof.
  intros Hf Hh Hd. unfold write_conll.
  erewrite bind_ok; [reflexivity|].
  rewrite (write_sentences_spec writer heads deprels sentences 0 w old Hf).
  - unfold ConllCodec.encode. now destruct heads, deprels.
  - now destruct heads.
  - now destruct deprels.
Qed.

Lemma write_conll_encodes_witness :
  let w := set_files {[ "/tmp/tmpa" := "" ]} (initial "/data/dev.conll" ∅) in
  files w !! "/tmp/tmpa" = Some ""
  /\ covers_if_given (Some [[0; 1]]) [[dog; barks]] = true
  /\ covers_if_given (@None (list (list string))) [[dog; barks]] = true
  /\ write_conll "/tmp/tmpa" [[dog; barks]] (Some [[0; 1]]) None w
     = (Ok tt,
        set_files (<["/tmp/tmpa" :=
                      "" +++ ConllCodec.encode [[dog; barks]] (Some [[0; 1]]) None]>
                     (files w)) w).
Proof.
  intros w. split; [reflexivity|]. split; [reflexivity|]. split; [reflexivity|].
  apply (write_conll_encodes "/tmp/tmpa" [[dog; barks]] (Some [[0; 1]]) None w "");
    reflexivity.
Defined.

(** The scenario of the specification: a sentence of two tokens, encoded
    with no overrides. *)
Example encode_dog_barks :
  ConllCodec.encode [[dog; barks]] None None
  = "1" +++ TAB +++ "Dog" +++ TAB +++ "dog" +++ TAB +++ "NOUN" +++ TAB +++ "NN"
    +++ TAB +++ "_" +++ TAB +++ "2" +++ TAB +++ "nsubj" +++ TAB +++ "_" +++ TAB
    +++ "_" +++ NL
    +++ "2" +++ TAB +++ "barks" +++ TAB +++ "bark" +++ TAB +++ "VERB" +++ TAB
    +++ "VBZ" +++ TAB +++ "_" +++ TAB +++ "0" +++ TAB +++ "root" +++ TAB +++ "_"
    +++ TAB +++ "_" +++ NL
    +++ NL.
Proof. vm_compute. reflexivity. Qed.

Example encode_with_predictions :
  ConllCodec.encode [[dog; barks]] (Some [[0; 1]]) (Some [["root"; "dobj"]])
  = "1" +++ TAB +++ "Dog" +++ TAB +++ "dog" +++ TAB +++ "NOUN" +++ TAB +++ "NN"
    +++ TAB +++ "_" +++ TAB +++ "0" +++ TAB +++ "root" +++ TAB +++ "_" +++ TAB
    +++ "_" +++ NL
    +++ "2" +++ TAB +++ "barks" +++ TAB +++ "bark" +++ TAB +++ "VERB" +++ TAB
    +++ "VBZ" +++ TAB +++ "_" +++ TAB +++ "1" +++ TAB +++ "dobj" +++ TAB +++ "_"
    +++ TAB +++ "_" +++ NL
    +++ NL.
Proof. vm_compute. reflexivity. Qed.

(** Predictions that do not reach the last token make [write_conll] raise;
    the lines before the gap are written. *)
Example write_conll_short_row :
  let w := set_files {[ "/tmp/tmpa" := "" ]} (initial "/data/dev.conll" ∅) in
  fst (write_conll "/tmp/tmpa" [[dog; barks]] (Some [[0]]) None w) = Raise IndexError
  /\ files (snd (write_conll "/tmp/tmpa" [[dog; barks]] (Some [[0]]) None w))
       !! "/tmp/tmpa"
     = Some (join TAB (ConllCodec.fields (set_head 0 dog)) +++ NL).
Proof. vm_compute. split; reflexivity. Qed.

(** The lines of a sentence: those of its tokens, then an empty one. *)
Lemma sentence_block_lines (tokens : list Token.t) :
  ConllCodec.sentence_block tokens
  = join "" (map (fun l => l +++ NL)
               (map (fun t => join TAB (ConllCodec.fields t)) tokens ++ [""])%list).
Proof.
  unfold ConllCodec.sentence_block.
  rewrite map_app, join_empty_app, map_map. cbn [map join]. reflexivity.
Qed.

Lemma join_empty_flat_map {A} (f : A -> list string) (l : list A) :
  join "" (map (fun x => join "" (f x)) l) = join "" (flat_map f l).
Proof.
  induction l as [|x l IH]; [reflexivity|].
  cbn [flat_map]. now rewrite map_cons, join_empty_cons, join_empty_app, IH.
Qed.

(** Read as a text, an encoding of tokens whose lines hold no newline is,
    sentence by sentence, one line per token and one empty line; the empty
    piece at the end is what follows the last newline. *)
Lemma encode_lines (sentences : list (list Token.t))
    (heads : option (list (list Z))) (deprels : option (list (list string))) :
  let encoded := ConllCodec.override set_deprel deprels
                   (ConllCodec.override set_head heads sentences) in
  Forall (Forall (fun t => contains "010" (join TAB (ConllCodec.fields t)) = false))
    encoded ->
  split_all "010" (ConllCodec.encode sentences heads deprels)
  = (flat_map (fun tokens =>
                 map (fun t => join TAB (ConllCodec.fields t)) tokens ++ [""])
       encoded ++ [""])%list.
Proof.
  intros encoded Hfree. unfold ConllCodec.encode. fold encoded.
  rewrite (map_ext _ _ sentence_block_lines).
  rewrite (join_empty_flat_map
             (fun tokens => map (fun l => l +++ NL)
                (map (fun t => join TAB (ConllCodec.fields t)) tokens ++ [""])%list)).
  assert (Hflat : forall ss : list (list Token.t),
    flat_map (fun tokens => map (fun l => l +++ NL)
                (map (fun t => join TAB (ConllCodec.fields t)) tokens ++ [""])%list) ss
    = map (fun l => l +++ NL)
        (flat_map (fun tokens =>
                     map (fun t => join TAB (ConllCodec.fields t)) tokens ++ [""])%list ss)).
  { induction ss as [|s ss IH]; [reflexivity|].
    cbn [flat_map]. rewrite IH, !map_app. now rewrite <- !app_assoc. }
  rewrite Hflat. apply (split_all_closed_lines "010").
  induction Hfree as [|tokens ss Htok _ IH]; [constructor|].
  cbn [flat_map]. apply Forall_app. split; [|exact IH].
  apply Forall_app. split; [|constructor; [reflexivity | constructor]].
  induction Htok; constructor; assumption.
Qed.

(** A token line whose fields hold no tab splits into the ten fields. *)
Lemma token_line_fields (t : Token.t) :
  Forall (fun field => contains "009" field = false) (ConllCodec.fields t) ->
  split_all "009" (join TAB (ConllCodec.fields t)) = ConllCodec.fields t
  /\ length (ConllCodec.fields t) = 10%nat.
Proof.
  intros Hfree. split; [|reflexivity].
  unfold ConllCodec.fields in *. now apply (split_all_join "009").
Qed.

Example encode_dog_barks_lines :
  split_all "010" (ConllCodec.encode [[dog; barks]] None None)
  = [ join TAB ["1"; "Dog"; "dog"; "NOUN"; "NN"; "_"; "2"; "nsubj"; "_"; "_"];
      join TAB ["2"; "barks"; "bark"; "VERB"; "VBZ"; "_"; "0"; "root"; "_"; "_"];
      ""; "" ].
Proof. vm_compute. reflexivity. Qed.

(** ** The external scorer: [exec_eval] *)

Section ExecEval.

Context {X : Type} (E : Env X).

(** [exec_eval] announces the command, runs it and interprets the answer. *)
Lemma exec_eval_spec parsed_file gold_file show_details w :
  exec_eval E parsed_file gold_file show_details w
  = (interpret (answer E parsed_file gold_file show_details w),
     after_call E parsed_file gold_file show_details w).
Proof.
  unfold exec_eval, bind, modify, run, lift, ret, interpret, answer, after_call,
    announce, obind.
  cbn [fst snd].
  destruct (decode _) as [output|e]; [|reflexivity].
  destruct (returncode _ =? 0); [|reflexivity].
  destruct (parse_scores output) as [scores|e]; reflexivity.
Qed.

End ExecEval.

Section Scorer.

Context {X : Type} (E : Env X).

Lemma exec_eval_outcome parsed_file gold_file show_details w :
  fst (exec_eval E parsed_file gold_file show_details w)
  = interpret (answer E parsed_file gold_file show_details w).
Proof. now rewrite exec_eval_spec. Qed.

(** The scores that [exec_eval] reads off an output whose first two lines
    each end in two space-separated fields. *)
Lemma parse_scores_fields (output l1 l2 : string) (more : list string)
    (ps1 ps2 : list string) (v1 x1 v2 x2 : string) (las uas : spec_float) :
  split_all "010" output = l1 :: l2 :: more ->
  space_fields l1 = (ps1 ++ [v1; x1])%list ->
  space_fields l2 = (ps2 ++ [v2; x2])%list ->
  PyFloat.float v1 = Some las ->
  PyFloat.float v2 = Some uas ->
  parse_scores output = Ok (las, uas).
Proof.
  intros Hlines H1 H2 Hlas Huas. unfold parse_scores.
  rewrite take_split_all, Hlines. cbn [take comprehension].
  rewrite (rsplit_second_to_last " " l1 ps1 v1 x1 H1).
  rewrite (rsplit_second_to_last " " l2 ps2 v2 x2 H2).
  unfold obind, float. now rewrite Hlas, Huas.
Qed.

(** C3. When the scorer exits with code 0 and each of the first two lines
    of its output ends in two space-separated fields, the last but one of
    which is numeric, [exec_eval] returns as LAS the number that the last but
    one field of the first line denotes and as UAS the number that the last
    but one field of the second line denotes. *)
Theorem exec_eval_reads_second_to_last_fields
    (parsed_file gold_file : string) (show_details : bool) (w : World)
    (output l1 l2 : string) (more ps1 ps2 : list string)
    (v1 x1 v2 x2 : string) (las uas : spec_float) :
  returncode (answer E parsed_file gold_file show_details w) = 0 ->
  Unicode.decode (stdout (answer E parsed_file gold_file show_details w))
  = Some output ->
  split_all "010" output = l1 :: l2 :: more ->
  space_fields l1 = (ps1 ++ [v1; x1])%list ->
  space_fields l2 = (ps2 ++ [v2; x2])%list ->
  PyFloat.float v1 = Some las ->
  PyFloat.float v2 = Some uas ->
  fst (exec_eval E parsed_file gold_file show_details w)
  = Ok {| Result.code := 0; Result.raw := output;
          Result.UAS := Some uas; Result.LAS := Some las |}.
Proof.
  intros Hcode Hout Hlines H1 H2 Hlas Huas.
  rewrite exec_eval_outcome. unfold interpret, decode.
  rewrite Hcode. cbn [Z.eqb]. rewrite Hout. cbn [obind].
  now rewrite (parse_scores_fields output l1 l2 more ps1 ps2 v1 x1 v2 x2 las uas).
Qed.


End Scorer.

(** C2, as stated, does not hold: on the two lines of the scenario the last
    but one field is [score:], which is no number, and [exec_eval] raises
    [ValueError]. *)
Lemma scenario_as_stated_raises :
  fst (exec_eval
         (scripted [scenario_as_stated] [])
         "/tmp/hyp" "/data/dev.conll" false (initial "/data/dev.conll" ∅))
  = Raise ValueError.
Proof. vm_compute. reflexivity. Qed.

Section ScorerScenario.

Context {X : Type} (E : Env X).

(** C2, amended. When the scorer exits with code 0 and its output is the
    line [Labeled   attachment score: 88.2 %] followed by the line
    [Unlabeled attachment score: 91.4 %], [exec_eval] returns LAS = 88.2 and
    UAS = 91.4, the last but one space-separated field of each line. *)
Theorem exec_eval_scenario
    (parsed_file gold_file : string) (show_details : bool) (w : World) :
  returncode (answer E parsed_file gold_file show_details w) = 0 ->
  stdout (answer E parsed_file gold_file show_details w)
  = "Labeled   attachment score: 88.2 %" +++ NL
    +++ "Unlabeled attachment score: 91.4 %" +++ NL ->
  fst (exec_eval E parsed_file gold_file show_details w)
  = Ok {| Result.code := 0;
          Result.raw := "Labeled   attachment score: 88.2 %" +++ NL
                        +++ "Unlabeled attachment score: 91.4 %" +++ NL;
          Result.UAS := Some (S754_finite false 0x16d9999999999a (-46));
          Result.LAS := Some (S754_finite false 0x160ccccccccccd (-46)) |}.
Proof.
  intros Hcode Hout.
  rewrite exec_eval_outcome. unfold interpret.
  rewrite Hcode. cbn [Z.eqb]. rewrite Hout.
  vm_compute. reflexivity.
Qed.

End ScorerScenario.

Lemma exec_eval_reads_second_to_last_fields_witness :
  fst (exec_eval (scripted [eval_pl_report] []) "/tmp/hyp" "/data/dev.conll" false
         (initial "/data/dev.conll" ∅))
  = Ok {| Result.code := 0; Result.raw := stdout eval_pl_report;
          Result.UAS := Some (S754_finite false 0x16d9999999999a (-46));
          Result.LAS := Some (S754_finite false 0x160ccccccccccd (-46)) |}.
Proof.
  apply (exec_eval_reads_second_to_last_fields
           (scripted [eval_pl_report] []) "/tmp/hyp" "/data/dev.conll" false
           (initial "/data/dev.conll" ∅) (stdout eval_pl_report)
           "  Labeled   attachment score: 441 / 500 * 100 = 88.20 %"
           "  Unlabeled attachment score: 457 / 500 * 100 = 91.40 %"
           ["  Label accuracy score:       460 / 500 * 100 = 92.00 %"; ""]
           [""; ""; "Labeled"; ""; ""; "attachment"; "score:"; "441"; "/"; "500";
            "*"; "100"; "="]
           [""; ""; "Unlabeled"; "attachment"; "score:"; "457"; "/"; "500";
            "*"; "100"; "="]
           "88.20" "%" "91.40" "%");
    vm_compute; reflexivity.
Defined.

Lemma exec_eval_scenario_witness :
  fst (exec_eval (scripted [scenario_report] []) "/tmp/hyp" "/data/dev.conll" false
         (initial "/data/dev.conll" ∅))
  = Ok {| Result.code := 0; Result.raw := stdout scenario_report;
          Result.UAS := Some (S754_finite false 0x16d9999999999a (-46));
          Result.LAS := Some (S754_finite false 0x160ccccccccccd (-46)) |}.
Proof.
  apply (exec_eval_scenario (scripted [scenario_report] []) "/tmp/hyp"
           "/data/dev.conll" false (initial "/data/dev.conll" ∅));
    vm_compute; reflexivity.
Defined.


(** ** Accumulating predictions: [append] and [on_batch_end] *)

Section Accumulate.

Context {X : Type} (E : Env X).

Lemma label_stored d l : label E d = Ok l -> stored_label E d l.
Proof.
  unfold label, stored_label.
  destruct (Z.ltb_spec 0 d) as [Hpos|Hneg];
    destruct (deprel_map_lookup E _) as [l'|] eqn:Hl; intros [= <-];
    split; intros; (reflexivity || (exfalso; lia)).
Qed.

Lemma labels_of_sentence (deprel : list Z) :
  Forall (has_label E) deprel ->
  exists ls, comprehension (label E) deprel = Ok ls /\ Forall2 (stored_label E) deprel ls.
Proof.
  induction 1 as [|d rest [l Hl] _ (ls & Hls & Hall)].
  - exists []. split; [reflexivity | constructor].
  - exists (l :: ls). cbn [comprehension].
    assert (Hd : label E d = Ok l) by (unfold label; now rewrite Hl).
    rewrite Hd, Hls. split; [reflexivity|].
    constructor; [now apply label_stored | assumption].
Qed.

Lemma extend_labels_ok (deprels : list (list Z)) :
  Forall (Forall (has_label E)) deprels ->
  exists lss, Forall2 (Forall2 (stored_label E)) deprels lss
    /\ forall w, extend_labels E deprels w
         = (Ok tt, snd (extend_deprels lss w)).
Proof.
  induction 1 as [|deprel rest Hd _ (lss & Hall & Hrun)].
  - exists []. split; [constructor|]. intros w. cbn. unfold ret.
    destruct w as [g [] fs t]. cbn. now rewrite app_nil_r.
  - destruct (labels_of_sentence deprel Hd) as (ls & Hls & Hst).
    exists (ls :: lss). split; [now constructor|]. intros w.
    cbn [extend_labels]. unfold bind, lift. rewrite Hls.
    unfold extend_deprels at 1, modify at 1. rewrite Hrun.
    unfold extend_deprels, modify. cbn. now rewrite <- app_assoc.
Qed.

(** Whatever happens to the labels, the loop touches nothing but the
    accumulated deprels. *)
Lemma extend_labels_frame (deprels : list (list Z)) (w : World) :
  let w' := snd (extend_labels E deprels w) in
  Parsed.sentences (_parsed w') = Parsed.sentences (_parsed w)
  /\ Parsed.heads (_parsed w') = Parsed.heads (_parsed w)
  /\ Parsed.UAS (_parsed w') = Parsed.UAS (_parsed w)
  /\ Parsed.LAS (_parsed w') = Parsed.LAS (_parsed w).
Proof.
  revert w. induction deprels as [|deprel rest IH]; intros w; [now cbn|].
  cbn [extend_labels]. unfold bind, lift.
  destruct (comprehension (label E) deprel) as [ls|e]; [|now cbn].
  unfold extend_deprels at 1, modify at 1.
  destruct (IH (set_parsed
                   {| Parsed.sentences := Parsed.sentences (_parsed w);
                      Parsed.heads := Parsed.heads (_parsed w);
                      Parsed.deprels := (Parsed.deprels (_parsed w) ++ [ls])%list;
                      Parsed.UAS := Parsed.UAS (_parsed w);
                      Parsed.LAS := Parsed.LAS (_parsed w) |} w))
    as (Hs & Hh & Hu & Hl).
  repeat split; assumption.
Qed.

(** C5. For a batch with at least one prediction whose ids the map knows
    (each positive id, and id 0 when some id is not positive), [append]
    returns, and the labels it adds to the accumulated deprels are, id by id,
    the map's label for [d] when [d > 0] and the map's label for id 0 when
    [d <= 0]. *)
Theorem append_maps_deprel_ids
    (sentences : list (list Token.t)) (parsed : list (list Z * list Z))
    (w : World) :
  parsed <> [] ->
  Forall (Forall (has_label E)) (map snd parsed) ->
  exists w',
    append E sentences parsed w = (Ok tt, w')
    /\ take (length (Parsed.deprels (_parsed w))) (Parsed.deprels (_parsed w'))
       = Parsed.deprels (_parsed w)
    /\ Forall2 (Forall2 (stored_label E)) (map snd parsed)
         (drop (length (Parsed.deprels (_parsed w))) (Parsed.deprels (_parsed w'))).
Proof.
  intros Hne Hlabels.
  destruct (extend_labels_ok (map snd parsed) Hlabels) as (lss & Hall & Hrun).
  unfold append, bind, lift, unzip_parsed.
  destruct parsed as [|pr parsed']; [congruence|].
  unfold extend_sentences at 1, modify at 1.
  unfold extend_heads at 1, modify at 1. cbn [fst snd].
  rewrite Hrun. eexists. split; [reflexivity|].
  cbn. rewrite take_app_length, drop_app_length. split; [reflexivity | assumption].
Qed.

(** C10. With no predictions [append] raises [ValueError] (nothing to unpack
    into heads and deprels); by then the batch has been added to the
    accumulated sentences, while heads and deprels are as they were, so the
    three sequences, if they had equal lengths, no longer have. *)
Theorem append_without_predictions
    (sentences : list (list Token.t)) (w : World) :
  let after := append E sentences [] w in
  fst after = Raise ValueError
  /\ Parsed.sentences (_parsed (snd after))
     = (Parsed.sentences (_parsed w) ++ sentences)%list
  /\ Parsed.heads (_parsed (snd after)) = Parsed.heads (_parsed w)
  /\ Parsed.deprels (_parsed (snd after)) = Parsed.deprels (_parsed w)
  /\ (sentences <> [] ->
      length (Parsed.sentences (_parsed w)) = length (Parsed.heads (_parsed w)) ->
      length (Parsed.sentences (_parsed (snd after)))
      <> length (Parsed.heads (_parsed (snd after)))).
Proof.
  cbn. repeat split. intros Hne Hlen. rewrite length_app.
  destruct sentences; [congruence|]. cbn [length]. lia.
Qed.

(** C7. On a training batch [on_batch_end] changes nothing.  On any other
    batch for which the model's [parse] (asked with [use_cache=True]) gives
    at least one prediction, with ids that the map knows, [on_batch_end]
    returns and has added the batch's sentences, each without its first token,
    to the sentences, the predicted heads to the heads, and the labels of the
    predicted ids to the deprels; nothing else is changed. *)
Theorem on_batch_end_appends_validation_batches
    (data : BatchData X) (w : World) :
  (train data = true -> on_batch_end E data w = (Ok tt, w))
  /\ (train data = false ->
      parser_parse E w (xs_inputs data) true <> [] ->
      Forall (Forall (has_label E))
        (map snd (parser_parse E w (xs_inputs data) true)) ->
      exists labelss,
        Forall2 (Forall2 (stored_label E))
          (map snd (parser_parse E w (xs_inputs data) true)) labelss
        /\ on_batch_end E data w
           = (Ok tt,
              set_parsed
                {| Parsed.sentences :=
                     (Parsed.sentences (_parsed w)
                      ++ map (drop 1) (xs_tokens data))%list;
                   Parsed.heads :=
                     (Parsed.heads (_parsed w)
                      ++ map fst (parser_parse E w (xs_inputs data) true))%list;
                   Parsed.deprels := (Parsed.deprels (_parsed w) ++ labelss)%list;
                   Parsed.UAS := Parsed.UAS (_parsed w);
                   Parsed.LAS := Parsed.LAS (_parsed w) |} w)).
Proof.
  unfold on_batch_end. split; intros ->; [reflexivity|].
  intros Hne Hlabels.
  destruct (extend_labels_ok _ Hlabels) as (lss & Hall & Hrun).
  exists lss. split; [exact Hall|].
  unfold bind at 1. cbn [fst snd].
  unfold append, bind, lift, unzip_parsed.
  destruct (parser_parse E w (xs_inputs data) true) as [|pr rest]; [congruence|].
  unfold extend_sentences at 1, modify at 1.
  unfold extend_heads at 1, modify at 1. cbn [fst snd].
  now rewrite Hrun.
Qed.

End Accumulate.

Lemma append_maps_deprel_ids_witness :
  let env := scripted [] [] in
  let w := initial "/data/dev.conll" ∅ in
  exists w',
    append env [[dog; barks]] [([2; 0], [2; -1])] w = (Ok tt, w')
    /\ take (length (Parsed.deprels (_parsed w))) (Parsed.deprels (_parsed w'))
       = Parsed.deprels (_parsed w)
    /\ Forall2 (Forall2 (stored_label env)) (map snd [([2; 0], [2; -1])])
         (drop (length (Parsed.deprels (_parsed w))) (Parsed.deprels (_parsed w'))).
Proof.
  intros env w.
  apply (append_maps_deprel_ids env [[dog; barks]] [([2; 0], [2; -1])] w).
  - discriminate.
  - constructor; [|constructor].
    constructor; [exists "nsubj"; reflexivity|].
    constructor; [exists "_"; reflexivity|].
    constructor.
Defined.

Lemma on_batch_end_appends_validation_batches_witness :
  let env := scripted [] [([2; 0], [2; 1])] in
  let w := initial "/data/dev.conll" ∅ in
  let data := {| train := false; xs_inputs := [tt; tt; tt];
                 xs_tokens := [[root_token; dog; barks]] |} in
  (exists w',
      on_batch_end env data w = (Ok tt, w')
      /\ Parsed.sentences (_parsed w') = [[dog; barks]]
      /\ Parsed.heads (_parsed w') = [[2; 0]]
      /\ Parsed.deprels (_parsed w') = [["nsubj"; "root"]])
  /\ on_batch_end env {| train := true; xs_inputs := [tt; tt; tt];
                         xs_tokens := [[root_token; dog; barks]] |} w
     = (Ok tt, w).
Proof.
  intros env w data. split.
  - destruct (proj2 (on_batch_end_appends_validation_batches env data w) eq_refl)
      as (labelss & Hall & Hrun).
    + discriminate.
    + constructor; [|constructor].
      constructor; [exists "nsubj"; reflexivity|].
      constructor; [exists "root"; reflexivity|]. constructor.
    + eexists. split; [exact Hrun|].
      split; [reflexivity|]. split; [reflexivity|].
      cbn [_parsed set_parsed Parsed.deprels initial app].
      inversion Hall as [|ds ls dss lss Hrow Hrest]; subst.
      inversion Hrest; subst.
      inversion Hrow as [|d1 l1 ds1 ls1 H1 Hrow1]; subst.
      inversion Hrow1 as [|d2 l2 ds2 ls2 H2 Hrow2]; subst.
      inversion Hrow2; subst.
      destruct H1 as [H1 _]. destruct H2 as [H2 _].
      specialize (H1 ltac:(lia)). specialize (H2 ltac:(lia)).
      vm_compute in H1, H2. now injection H1 as <-; injection H2 as <-.
  - exact (proj1 (on_batch_end_appends_validation_batches env
                    {| train := true; xs_inputs := [tt; tt; tt];
                       xs_tokens := [[root_token; dog; barks]] |} w) eq_refl).
Defined.

(** Without predictions the batch is not appended: [on_batch_end] raises
    [ValueError] with the sentences added and no heads and no deprels. *)
Lemma on_batch_end_without_predictions_raises :
  let env := scripted [] [] in
  let w := initial "/data/dev.conll" ∅ in
  let data := {| train := false; xs_inputs := [tt; tt; tt];
                 xs_tokens := [[root_token; dog; barks]] |} in
  fst (on_batch_end env data w) = Raise ValueError
  /\ Parsed.sentences (_parsed (snd (on_batch_end env data w))) = [[dog; barks]]
  /\ Parsed.heads (_parsed (snd (on_batch_end env data w))) = []
  /\ Parsed.deprels (_parsed (snd (on_batch_end env data w))) = [].
Proof. repeat split. Qed.

(** The labels that the scenario stores: id 2 is [nsubj], and the
    non-positive id -1 gets the label of id 0. *)
Example append_labels_example :
  Parsed.deprels
    (_parsed (snd (append (scripted [] []) [[dog; barks]] [([2; 0], [2; -1])]
                     (initial "/data/dev.conll" ∅))))
  = [["nsubj"; "_"]].
Proof. reflexivity. Qed.

Lemma append_without_predictions_witness :
  let after := append (scripted [] []) [[dog; barks]] []
                 (initial "/data/dev.conll" ∅) in
  fst after = Raise ValueError
  /\ length (Parsed.sentences (_parsed (snd after))) = 1%nat
  /\ length (Parsed.heads (_parsed (snd after))) = 0%nat.
Proof.
  intros after.
  destruct (append_without_predictions (scripted [] []) [[dog; barks]]
              (initial "/data/dev.conll" ∅)) as (Hraise & Hs & Hh & _).
  split; [exact Hraise|]. fold after in Hs, Hh. now rewrite Hs, Hh.
Defined.

(** ** The scripted environments *)

Lemma scripted_fresh answers predictions : fresh_names (scripted answers predictions).
Proof.
  intros w. cbn [tempfile_name scripted].
  set (name := fresh_string "/tmp/tmp" (<[_gold_file w := ""]> (files w))).
  assert (H : <[_gold_file w := ""]> (files w) !! name = None)
    by apply fresh_string_fresh.
  assert (Hne : name <> _gold_file w).
  { intros Heq. rewrite Heq in H. now rewrite lookup_insert_eq in H. }
  split; [|exact Hne]. now rewrite lookup_insert_ne in H.
Qed.

Lemma comparing_env_fresh : fresh_names comparing_env.
Proof. exact (scripted_fresh [] []). Qed.

Lemma comparing_env_deterministic :
  deterministic_scorer comparing_env (fun _ => comparing).
Proof. intros w parsed_file gold_file show_details. reflexivity. Qed.

(** ** [report] *)

Section Report.
Context {X : Type} (E : Env X).

Lemma set_files_twice a b w : set_files a (set_files b w) = set_files a w.
Proof. reflexivity. Qed.

Lemma write_gold f sentences w old :
  files w !! f = Some old ->
  write_conll f sentences None None w
  = (Ok tt, set_files (<[f := old +++ ConllCodec.encode sentences None None]> (files w)) w).
Proof.
  intros Hf. unfold write_conll.
  erewrite bind_ok; [reflexivity|].
  now rewrite (write_sentences_spec f None None sentences 0 w old Hf).
Qed.

(** The paths of [report], given how the encoding of the hypothesis ends
    ([o]) and the text it writes ([text]). *)
Lemma report_unfold show_details w o text :
  (forall f w' old, files w' !! f = Some old ->
     write_conll f (Parsed.sentences (_parsed w))
       (Some (Parsed.heads (_parsed w))) (Some (Parsed.deprels (_parsed w))) w'
     = (o, set_files (<[f := old +++ text]> (files w')) w')) ->
  let f := hypothesis_file E w in
  let wh := set_files (<[f := text]> (files w)) w in
  let wa := after_call E f (_gold_file w) show_details wh in
  let g := tempfile_name E wa in
  let wg := set_files (<[g := gold_text (_parsed w)]> (files wa)) wa in
  let wb := after_call E f g show_details wg in
  report E show_details w =
  match o with
  | Raise e => (Raise e, set_files (delete f (files wh)) wh)
  | Ok _ =>
      match interpret (answer E f (_gold_file w) show_details wh) with
      | Raise e => (Raise e, set_files (delete f (files wa)) wa)
      | Ok r1 =>
          if Result.code r1 =? 0
          then (Ok tt, concluded r1 (set_files (delete f (files wa)) wa))
          else
            match interpret (answer E f g show_details wg) with
            | Raise e => (Raise e, set_files (delete f (delete g (files wb))) wb)
            | Ok r2 => (Ok tt, concluded r2 (set_files (delete f (delete g (files wb))) wb))
            end
      end
  end.
Proof.
  intros Hw f wh wa g wg wb.
  unfold report.
  unfold bind at 1. unfold with_NamedTemporaryFile at 1.
  fold (hypothesis_file E w). fold f.
  unfold bind at 1. unfold get at 1.
  unfold bind at 1.
  rewrite (Hw f _ "") by just_written.
  rewrite set_files_twice. cbn [set_files files _parsed _gold_file].
  rewrite insert_insert_eq.
  change ("" +++ text) with text. fold (set_files (<[f:=text]> (files w)) w).
  fold wh.
  destruct o as [[]|e]; [|reflexivity].
  unfold bind at 1. rewrite exec_eval_spec. fold wa.
  destruct (interpret (answer E f (_gold_file w) show_details wh)) as [r1|e];
    [|reflexivity].
  destruct (Result.code r1 =? 0) eqn:Hc1; cbn [negb].
  - unfold ret at 1. unfold concluded. rewrite Hc1.
    unfold bind, store_scores, modify, ret. reflexivity.
  - unfold with_NamedTemporaryFile at 1. fold g.
    unfold bind at 1.
    rewrite (write_gold g _ _ "") by just_written.
    rewrite set_files_twice. cbn [set_files files _parsed _gold_file].
    rewrite insert_insert_eq.
    change ("" +++ ConllCodec.encode (Parsed.sentences (_parsed w)) None None)
      with (gold_text (_parsed w)).
    fold (set_files (<[g:=gold_text (_parsed w)]> (files wa)) wa). fold wg.
    rewrite exec_eval_spec. fold wb.
    rewrite set_files_twice.
    destruct (interpret (answer E f g show_details wg)) as [r2|e]; [|reflexivity].
    unfold concluded.
    destruct (Result.code r2 =? 0) eqn:Hc2;
      unfold bind, store_scores, modify, ret; reflexivity.
Qed.
End Report.

Section ReportPaths.

Context {X : Type} (E : Env X).

(** When the predictions are parallel to the sentences the encoding of the
    hypothesis succeeds and writes the text of the specification. *)
Lemma write_hypothesis (p : Parsed.t) :
  parallel p = true ->
  forall f w old, files w !! f = Some old ->
    write_conll f (Parsed.sentences p) (Some (Parsed.heads p))
      (Some (Parsed.deprels p)) w
    = (Ok tt, set_files (<[f := old +++ hypothesis_text p]> (files w)) w).
Proof.
  intros [Hh Hd]%andb_true_iff f w old Hf. unfold write_conll.
  erewrite bind_ok; [reflexivity|].
  now rewrite (write_sentences_spec f (Some _) (Some _) _ 0 w old Hf).
Qed.

Lemma concluded_parsed (r : Result.t) (w : World) :
  _parsed (concluded r w)
  = if Result.code r =? 0 then with_scores r (_parsed w) else _parsed w.
Proof. by_exit_code r. Qed.

Lemma concluded_files (r : Result.t) (w : World) :
  files (concluded r w) = files w.
Proof. by_exit_code r. Qed.

Lemma concluded_gold_file (r : Result.t) (w : World) :
  _gold_file (concluded r w) = _gold_file w.
Proof. by_exit_code r. Qed.

Lemma concluded_trace (r : Result.t) (w : World) :
  trace (concluded r w)
  = (trace w ++ [LogInfo (if Result.code r =? 0 then success_message r
                          else error_message r)])%list.
Proof. by_exit_code r. Qed.

(** The two temporary files of [report] are different files. *)
Lemma retry_files (show_details : bool) (w : World) :
  fresh_names E ->
  files (retry_world E show_details w) !! hypothesis_file E w
  = Some (hypothesis_text (_parsed w))
  /\ files (retry_world E show_details w) !! gold_file_again E show_details w
     = Some (gold_text (_parsed w)).
Proof.
  intros Hfresh. unfold retry_world. cbn [set_files files].
  split; [|apply lookup_insert_eq].
  rewrite lookup_insert_ne.
  - cbn. apply lookup_insert_eq.
  - intros Heq.
    destruct (Hfresh (after_call E (hypothesis_file E w) (_gold_file w)
                        show_details (first_world E w))) as [Hnone _].
    fold (gold_file_again E show_details w) in Hnone. rewrite Heq in Hnone.
    cbn in Hnone. now rewrite lookup_insert_eq in Hnone.
Qed.


(** X17. Whatever the scorer answers and however [report] ends, the two
    temporary files are gone afterwards and the rest of the disk is as it
    was. *)
Lemma report_deletes_temporary_files (show_details : bool) (w : World) :
  fresh_names E ->
  files (snd (report E show_details w)) = files w
  /\ _gold_file (snd (report E show_details w)) = _gold_file w.
Proof.
  intros Hfresh.
  destruct (write_conll_run (Parsed.sentences (_parsed w))
              (Some (Parsed.heads (_parsed w))) (Some (Parsed.deprels (_parsed w))))
    as (o & text & Hw).
  rewrite (report_unfold E show_details w o text Hw).
  destruct (Hfresh w) as [Hf_new _]. fold (hypothesis_file E w) in Hf_new.
  set (f := hypothesis_file E w) in *.
  set (wh := set_files (<[f:=text]> (files w)) w).
  set (wa := after_call E f (_gold_file w) show_details wh).
  destruct (Hfresh wa) as [Hg_new _].
  set (g := tempfile_name E wa) in *.
  set (wg := set_files (<[g:=gold_text (_parsed w)]> (files wa)) wa).
  set (wb := after_call E f g show_details wg).
  assert (Hdel0 : delete f (files wh) = files w).
  { cbn. now apply delete_insert_id. }
  assert (Hdel1 : delete f (files wa) = files w) by exact Hdel0.
  assert (Hdel2 : delete f (delete g (files wb)) = files w).
  { cbn. rewrite delete_insert_id by exact Hg_new. now apply delete_insert_id. }
  destruct o as [[]|e]; [|now cbn [snd set_files files _gold_file]].
  destruct (interpret (answer E f (_gold_file w) show_details wh)) as [r1|e];
    [|now cbn [snd set_files files _gold_file]].
  destruct (Result.code r1 =? 0).
  - cbn [snd]. now rewrite concluded_files, concluded_gold_file.
  - destruct (interpret (answer E f g show_details wg)) as [r2|e]; cbn [snd].
    + now rewrite concluded_files, concluded_gold_file.
    + now cbn [set_files files _gold_file].
Qed.

(** The paths of [report] from a state with parallel predictions. *)
Lemma report_paths (show_details : bool) (w : World) :
  parallel (_parsed w) = true ->
  let f := hypothesis_file E w in
  let g := gold_file_again E show_details w in
  let wa := after_call E f (_gold_file w) show_details (first_world E w) in
  let wb := after_call E f g show_details (retry_world E show_details w) in
  report E show_details w =
  match interpret (first_answer E show_details w) with
  | Raise e => (Raise e, set_files (delete f (files wa)) wa)
  | Ok r1 =>
      if Result.code r1 =? 0
      then (Ok tt, concluded r1 (set_files (delete f (files wa)) wa))
      else
        match interpret (retry_answer E show_details w) with
        | Raise e => (Raise e, set_files (delete f (delete g (files wb))) wb)
        | Ok r2 => (Ok tt, concluded r2 (set_files (delete f (delete g (files wb))) wb))
        end
  end.
Proof.
  intros Hpar.
  exact (report_unfold E show_details w (Ok tt) (hypothesis_text (_parsed w))
           (write_hypothesis (_parsed w) Hpar)).
Qed.

(** C1, amended. For every evaluator state whose heads and deprels are
    parallel to the accumulated sentences, [report] first scores the encoded
    hypothesis file against the configured gold file; if and only if that
    attempt returns a non-zero exit code it encodes the same sentences without
    overrides into a second temporary file and scores the same hypothesis
    file against it; when an attempt returns exit code 0 its UAS and LAS are
    stored; when the retry returns a non-zero exit code too, the stored UAS
    and LAS are left as they were and the failure is logged, not raised. *)
Theorem report_retry_policy (show_details : bool) (w : World) :
  parallel (_parsed w) = true ->
  fresh_names E ->
  let f := hypothesis_file E w in
  let g := gold_file_again E show_details w in
  let first_call :=
    [ announce E f (_gold_file w) show_details;
      Run (command_line E f (_gold_file w) show_details) (files (first_world E w)) ] in
  let retry_call :=
    [ announce E f g show_details;
      Run (command_line E f g show_details) (files (retry_world E show_details w)) ] in
  let after := report E show_details w in
  files (first_world E w) !! f = Some (hypothesis_text (_parsed w))
  /\ files (retry_world E show_details w) !! f = Some (hypothesis_text (_parsed w))
  /\ files (retry_world E show_details w) !! g = Some (gold_text (_parsed w))
  /\ match interpret (first_answer E show_details w) with
     | Ok r1 =>
         if Result.code r1 =? 0 then
           fst after = Ok tt
           /\ _parsed (snd after) = with_scores r1 (_parsed w)
           /\ trace (snd after)
              = (trace w ++ first_call ++ [LogInfo (success_message r1)])%list
         else
           match interpret (retry_answer E show_details w) with
           | Ok r2 =>
               fst after = Ok tt
               /\ _parsed (snd after)
                  = (if Result.code r2 =? 0 then with_scores r2 (_parsed w)
                     else _parsed w)
               /\ trace (snd after)
                  = (trace w ++ first_call ++ retry_call
                     ++ [LogInfo (if Result.code r2 =? 0 then success_message r2
                                  else error_message r2)])%list
           | Raise e =>
               fst after = Raise e
               /\ _parsed (snd after) = _parsed w
               /\ trace (snd after) = (trace w ++ first_call ++ retry_call)%list
           end
     | Raise e =>
         fst after = Raise e
         /\ _parsed (snd after) = _parsed w
         /\ trace (snd after) = (trace w ++ first_call)%list
     end.
Proof.
  intros Hpar Hfresh f g first_call retry_call after.
  destruct (retry_files show_details w Hfresh) as [Hf Hg].
  split; [apply lookup_insert_eq|]. split; [exact Hf|]. split; [exact Hg|].
  subst after. rewrite (report_paths show_details w Hpar).
  destruct (interpret (first_answer E show_details w)) as [r1|e].
  - destruct (Result.code r1 =? 0) eqn:Hc1.
    + cbn [fst snd]. rewrite concluded_parsed, concluded_trace, Hc1.
      split; [reflexivity|]. split; [reflexivity|].
      cbn. now rewrite <- !app_assoc.
    + destruct (interpret (retry_answer E show_details w)) as [r2|e];
        cbn [fst snd].
      * rewrite concluded_parsed, concluded_trace.
        split; [reflexivity|]. split; [reflexivity|].
        cbn. now rewrite <- !app_assoc.
      * split; [reflexivity|]. split; [reflexivity|].
        cbn. now rewrite <- !app_assoc.
  - cbn. split; [reflexivity|]. split; [reflexivity|]. now rewrite <- !app_assoc.
Qed.

(** C9, amended. After [reset], [report] on zero accumulated sentences ends
    without an exception whenever [exec_eval] can read the answer of each
    scoring attempt that is made: a non-zero exit code with diagnostics that
    are valid UTF-8, or exit code 0 with an output whose first two lines have
    a number as their last but one space-separated field. *)
Theorem report_after_reset (show_details : bool) (w : World) (r1 : Result.t) :
  let w0 := snd (reset w) in
  interpret (first_answer E show_details w0) = Ok r1 ->
  (Result.code r1 <> 0 ->
   exists r2, interpret (retry_answer E show_details w0) = Ok r2) ->
  fst (report E show_details w0) = Ok tt.
Proof.
  intros w0 H1 H2.
  rewrite (report_paths show_details w0 eq_refl), H1.
  destruct (Z.eqb_spec (Result.code r1) 0) as [Hz|Hnz]; [reflexivity|].
  destruct (H2 Hnz) as [r2 Hr2]. now rewrite Hr2.
Qed.

End ReportPaths.

(** C1, as stated, does not hold.  An evaluator that has reported once
    holds scores; when both attempts of a later [report] return a non-zero
    exit code, these scores stay and are not unset.  And after an [append]
    that failed, the state is not parallel: [report] raises [IndexError]
    while encoding the hypothesis and scores nothing. *)
Lemma report_counterexample :
  let env := scripted [scenario_report] [] in
  let w1 := snd (append env [[dog; barks]] [([2; 0], [2; 1])]
                   (initial "/data/dev.conll" ∅)) in
  let scored := snd (report env false w1) in
  let ragged := snd (append env [[dog]] [] w1) in
  (returncode (first_answer env false scored) = 1
   /\ returncode (retry_answer env false scored) = 1
   /\ fst (report env false scored) = Ok tt
   /\ Parsed.UAS (_parsed (snd (report env false scored)))
      = Some (S754_finite false 0x16d9999999999a (-46))
   /\ Parsed.LAS (_parsed (snd (report env false scored)))
      = Some (S754_finite false 0x160ccccccccccd (-46)))
  /\ (fst (report env false ragged) = Raise IndexError
      /\ runs (snd (report env false ragged)) = runs ragged).
Proof. vm_compute. repeat split; reflexivity. Qed.

(** C9, as stated, does not hold: when the scorer exits with code 0 and
    prints nothing, [report] after [reset] raises [IndexError]. *)
Lemma reset_report_empty_output_raises :
  fst (report (scripted [empty_report] []) false
         (snd (reset (initial "/data/dev.conll" ∅))))
  = Raise IndexError.
Proof. vm_compute. reflexivity. Qed.

(** A first attempt that fails and a retry that succeeds: the scores of
    the retry are stored. *)
Lemma report_retry_policy_witness :
  let env := scripted [no_answer; scenario_report] [] in
  let w := snd (append env [[dog; barks]] [([2; 0], [2; 1])]
                  (initial "/data/dev.conll" ∅)) in
  parallel (_parsed w) = true
  /\ fresh_names env
  /\ fst (report env false w) = Ok tt
  /\ Parsed.UAS (_parsed (snd (report env false w)))
     = Some (S754_finite false 0x16d9999999999a (-46))
  /\ length (filter is_run (trace (snd (report env false w)))) = 2%nat.
Proof.
  intros env w.
  assert (Hpar : parallel (_parsed w) = true) by reflexivity.
  assert (Hfresh : fresh_names env) by apply scripted_fresh.
  split; [exact Hpar|]. split; [exact Hfresh|].
  destruct (report_retry_policy env false w Hpar Hfresh) as (_ & _ & _ & H).
  replace (interpret (first_answer env false w))
    with (Ok {| Result.code := 1; Result.raw := "";
                Result.UAS := None; Result.LAS := None |} : outcome Result.t) in H
    by (vm_compute; reflexivity).
  cbn [Result.code Z.eqb] in H.
  replace (interpret (retry_answer env false w))
    with (interpret scenario_report) in H by (vm_compute; reflexivity).
  replace (interpret scenario_report)
    with (Ok {| Result.code := 0; Result.raw := stdout scenario_report;
                Result.UAS := Some (S754_finite false 0x16d9999999999a (-46));
                Result.LAS := Some (S754_finite false 0x160ccccccccccd (-46)) |}
          : outcome Result.t) in H by (vm_compute; reflexivity).
  destruct H as (Hok & Hparsed & Htrace).
  split; [exact Hok|]. split.
  - rewrite Hparsed. reflexivity.
  - rewrite Htrace, !filter_app, !length_app.
    assert (Hw : trace w = []) by reflexivity. rewrite Hw. reflexivity.
Defined.

Lemma report_after_reset_witness :
  let env := scripted [no_answer; no_answer] [] in
  fst (report env false (snd (reset (initial "/data/dev.conll" ∅)))) = Ok tt.
Proof.
  intros env.
  apply (report_after_reset env false (initial "/data/dev.conll" ∅)
           {| Result.code := 1; Result.raw := "";
              Result.UAS := None; Result.LAS := None |}).
  - vm_compute. reflexivity.
  - intros _.
    exists {| Result.code := 1; Result.raw := "";
              Result.UAS := None; Result.LAS := None |}.
    vm_compute. reflexivity.
Defined.

(** ** Reporting twice *)

Lemma settled_frame (o : outcome unit) (r1 r2 : outcome Result.t) (old : Parsed.t) :
  Parsed.sentences (settled o r1 r2 old) = Parsed.sentences old
  /\ Parsed.heads (settled o r1 r2 old) = Parsed.heads old
  /\ Parsed.deprels (settled o r1 r2 old) = Parsed.deprels old.
Proof.
  unfold settled.
  destruct o as [[]|?], r1 as [a|?]; try (now repeat split).
  destruct (Result.code a =? 0); [now repeat split|].
  destruct r2 as [b|?]; [|now repeat split].
  destruct (Result.code b =? 0); now repeat split.
Qed.

(** Settling again on the same results changes no score. *)
Lemma settled_twice (o : outcome unit) (r1 r2 : outcome Result.t) (old : Parsed.t) :
  Parsed.UAS (settled o r1 r2 (settled o r1 r2 old))
  = Parsed.UAS (settled o r1 r2 old)
  /\ Parsed.LAS (settled o r1 r2 (settled o r1 r2 old))
     = Parsed.LAS (settled o r1 r2 old).
Proof.
  unfold settled.
  destruct o as [[]|?], r1 as [a|?]; try (now split).
  destruct (Result.code a =? 0); [now split|].
  destruct r2 as [b|?]; [|now split].
  destruct (Result.code b =? 0); now split.
Qed.

Section ReportTwice.

Context {X : Type} (E : Env X).
Variable sc : bool -> option string -> option string -> CompletedProcess.
Hypothesis scorer_function : deterministic_scorer E sc.
Hypothesis names_fresh : fresh_names E.

Lemma answer_function parsed_file gold_file show_details w :
  answer E parsed_file gold_file show_details w
  = sc show_details (files w !! parsed_file) (files w !! gold_file).
Proof. unfold answer. now rewrite scorer_function. Qed.

(** With a scorer that is a function of the two texts, what [report] leaves
    depends on the accumulated predictions and on the text of the gold file
    only; the files are as before. *)
Lemma report_settles show_details w o text :
  (forall f w' old, files w' !! f = Some old ->
     write_conll f (Parsed.sentences (_parsed w))
       (Some (Parsed.heads (_parsed w))) (Some (Parsed.deprels (_parsed w))) w'
     = (o, set_files (<[f := old +++ text]> (files w')) w')) ->
  let w1 := snd (report E show_details w) in
  _parsed w1
  = settled o
      (interpret (sc show_details (Some text) (files w !! _gold_file w)))
      (interpret (sc show_details (Some text) (Some (gold_text (_parsed w)))))
      (_parsed w)
  /\ files w1 = files w
  /\ _gold_file w1 = _gold_file w.
Proof.
  intros Hw w1. subst w1. rewrite (report_unfold E show_details w o text Hw).
  destruct (names_fresh w) as [Hf_new Hf_gold].
  fold (hypothesis_file E w) in Hf_new, Hf_gold.
  set (f := hypothesis_file E w) in *.
  set (wh := set_files (<[f:=text]> (files w)) w).
  set (wa := after_call E f (_gold_file w) show_details wh).
  destruct (names_fresh wa) as [Hg_new _].
  set (g := tempfile_name E wa) in *.
  set (wg := set_files (<[g:=gold_text (_parsed w)]> (files wa)) wa).
  set (wb := after_call E f g show_details wg).
  assert (Hgf : g <> f).
  { intros Heq. rewrite Heq in Hg_new. cbn in Hg_new.
    now rewrite lookup_insert_eq in Hg_new. }
  assert (Hdel1 : delete f (files wa) = files w).
  { cbn. now apply delete_insert_id. }
  assert (Hdel2 : delete f (delete g (files wb)) = files w).
  { cbn. rewrite delete_insert_id by exact Hg_new. now apply delete_insert_id. }
  assert (H1 : answer E f (_gold_file w) show_details wh
               = sc show_details (Some text) (files w !! _gold_file w)).
  { rewrite answer_function. cbn.
    now rewrite lookup_insert_eq, lookup_insert_ne. }
  assert (H2 : answer E f g show_details wg
               = sc show_details (Some text) (Some (gold_text (_parsed w)))).
  { rewrite answer_function. cbn.
    now rewrite lookup_insert_eq, lookup_insert_ne, lookup_insert_eq. }
  rewrite H1, H2. unfold settled.
  destruct o as [[]|e].
  - destruct (interpret (sc show_details (Some text) (files w !! _gold_file w)))
      as [r1|e].
    + destruct (Result.code r1 =? 0) eqn:Hc1.
      * cbn [snd]. rewrite concluded_parsed, concluded_files, concluded_gold_file, Hc1.
        cbn [set_files files _parsed _gold_file]. now rewrite Hdel1.
      * destruct (interpret (sc show_details (Some text)
                               (Some (gold_text (_parsed w))))) as [r2|e];
          cbn [snd].
        -- rewrite concluded_parsed, concluded_files, concluded_gold_file.
           cbn [set_files files _parsed _gold_file]. now rewrite Hdel2.
        -- cbn [set_files files _parsed _gold_file]. now rewrite Hdel2.
    + cbn [snd set_files files _parsed _gold_file]. now rewrite Hdel1.
  - cbn [snd set_files files _parsed _gold_file].
    split; [reflexivity|]. split; [|reflexivity]. cbn. now apply delete_insert_id.
Qed.

(** C6. With a scorer that is a function of the texts of the hypothesis
    file and of the gold file, and temporary files that get fresh names, a
    second [report] right after a first one leaves the stored UAS and LAS as
    the first one left them.  The two calls may differ in [show_details] when
    the scorer's answer does not depend on [-q]. *)
Theorem report_twice_same_scores (first_details second_details : bool) (w : World) :
  (forall parsed gold, sc first_details parsed gold = sc second_details parsed gold) ->
  let w1 := snd (report E first_details w) in
  let w2 := snd (report E second_details w1) in
  Parsed.UAS (_parsed w2) = Parsed.UAS (_parsed w1)
  /\ Parsed.LAS (_parsed w2) = Parsed.LAS (_parsed w1).
Proof.
  intros Hflag w1 w2.
  destruct (write_conll_run (Parsed.sentences (_parsed w))
              (Some (Parsed.heads (_parsed w))) (Some (Parsed.deprels (_parsed w))))
    as (o & text & Hw).
  destruct (report_settles first_details w o text Hw) as (Hp1 & Hf1 & Hg1).
  fold w1 in Hp1, Hf1, Hg1.
  destruct (settled_frame o
              (interpret (sc first_details (Some text) (files w !! _gold_file w)))
              (interpret (sc first_details (Some text) (Some (gold_text (_parsed w)))))
              (_parsed w)) as (Hs & Hh & Hd).
  rewrite <- Hp1 in Hs, Hh, Hd.
  assert (Hw1 : forall f w' old, files w' !! f = Some old ->
     write_conll f (Parsed.sentences (_parsed w1))
       (Some (Parsed.heads (_parsed w1))) (Some (Parsed.deprels (_parsed w1))) w'
     = (o, set_files (<[f := old +++ text]> (files w')) w')).
  { rewrite Hs, Hh, Hd. exact Hw. }
  destruct (report_settles second_details w1 o text Hw1) as (Hp2 & _ & _).
  fold w2 in Hp2.
  assert (Hgold : gold_text (_parsed w1) = gold_text (_parsed w)).
  { unfold gold_text. now rewrite Hs. }
  rewrite Hf1, Hg1, Hgold, <- !Hflag in Hp2.
  rewrite Hp2, Hp1. apply settled_twice.
Qed.

End ReportTwice.

Lemma report_twice_same_scores_witness :
  let w := snd (append comparing_env [[dog; barks]] [([2; 0], [2; 1])]
                  (initial "/data/dev.conll" {[ "/data/dev.conll" := "" ]})) in
  let w1 := snd (report comparing_env false w) in
  let w2 := snd (report comparing_env true w1) in
  deterministic_scorer comparing_env (fun _ => comparing)
  /\ fresh_names comparing_env
  /\ Parsed.UAS (_parsed w2) = Parsed.UAS (_parsed w1)
  /\ Parsed.LAS (_parsed w2) = Parsed.LAS (_parsed w1).
Proof.
  intros w w1 w2.
  split; [exact comparing_env_deterministic|].
  split; [exact comparing_env_fresh|].
  exact (report_twice_same_scores comparing_env (fun _ => comparing)
           comparing_env_deterministic comparing_env_fresh false true w
           (fun _ _ => eq_refl)).
Defined.

(* ===================================================================== *)
(** * Part III: further properties of the code *)
(* ===================================================================== *)

(** ** [write_conll]: when it raises, and what it leaves alone *)

Lemma fst_bind {A B} (m : M A) (k : A -> M B) (w : World) :
  fst (bind m k w)
  = match fst (m w) with
    | Ok a => fst (k a (snd (m w)))
    | Raise e => Raise e
    end.
Proof. unfold bind. now destruct (m w) as [[a|e] w']. Qed.

(** A line is printed when both indices are in range, and [IndexError] is
    raised when one is not. *)
Lemma conll_line_picked (token : Token.t) (i j : nat)
    (heads : option (list (list Z))) (deprels : option (list (list string))) :
  conll_line token i j heads deprels
  = match picked heads i j (Token.head token),
          picked deprels i j (Token.deprel token) with
    | Some h, Some d =>
        Ok (join TAB (ConllCodec.fields (set_deprel d (set_head h token))))
    | _, _ => Raise IndexError
    end.
Proof.
  unfold conll_line, picked, index, obind.
  destruct heads as [hs|], deprels as [ds|].
  - destruct (hs !! i) as [hrow|]; [|reflexivity].
    destruct (hrow !! j) as [h|]; [|reflexivity].
    destruct (ds !! i) as [drow|]; [|reflexivity].
    now destruct (drow !! j).
  - destruct (hs !! i) as [hrow|]; [|reflexivity].
    now destruct (hrow !! j).
  - destruct (ds !! i) as [drow|]; [|reflexivity].
    now destruct (drow !! j).
  - reflexivity.
Qed.

Lemma fits_cons {A} (rows : option (list (list A))) (i j : nat) (own : A)
    (token : Token.t) (rest : list Token.t) :
  fits rows i j (token :: rest)
  = bool_decide (is_Some (picked rows i j own)) && fits rows i (S j) rest.
Proof.
  unfold fits, picked. destruct rows as [rs|].
  - destruct (rs !! i) as [row|].
    + destruct (row !! j) as [x|] eqn:Hj.
      * rewrite bool_decide_eq_true_2 by eauto.
        apply lookup_lt_Some in Hj.
        destruct rest as [|t r]; cbn [length andb].
        -- apply Nat.leb_le. lia.
        -- f_equal. lia.
      * rewrite bool_decide_eq_false_2 by (intros [? [=]]).
        apply lookup_ge_None in Hj. cbn [length andb]. apply Nat.leb_gt. lia.
    + rewrite bool_decide_eq_false_2 by (intros [? [=]]). reflexivity.
  - rewrite bool_decide_eq_true_2 by eauto. now destruct rest.
Qed.

Lemma write_tokens_outcome (f : string) (i : nat)
    (heads : option (list (list Z))) (deprels : option (list (list string)))
    (tokens : list Token.t) :
  forall j w,
    fst (write_tokens f i j tokens heads deprels w)
    = if fits heads i j tokens && fits deprels i j tokens then Ok tt
      else Raise IndexError.
Proof.
  induction tokens as [|token rest IH]; intros j w; [reflexivity|].
  cbn [write_tokens]. rewrite fst_bind. unfold lift at 1. cbn [fst snd].
  rewrite conll_line_picked.
  rewrite (fits_cons heads i j (Token.head token)),
          (fits_cons deprels i j (Token.deprel token)).
  destruct (picked heads i j (Token.head token)) as [h|].
  - destruct (picked deprels i j (Token.deprel token)) as [d|].
    + rewrite !bool_decide_eq_true_2 by eauto. cbn [andb].
      rewrite fst_bind. unfold write at 1, modify at 1. cbn [fst snd].
      apply IH.
    + rewrite (bool_decide_eq_false_2 (is_Some None)) by (intros [? [=]]).
      now rewrite andb_false_r.
  - now rewrite (bool_decide_eq_false_2 (is_Some None)) by (intros [? [=]]).
Qed.

Lemma write_sentences_outcome (f : string)
    (heads : option (list (list Z))) (deprels : option (list (list string)))
    (sentences : list (list Token.t)) :
  forall i w,
    fst (write_sentences f i sentences heads deprels w)
    = if indexable heads i sentences && indexable deprels i sentences then Ok tt
      else Raise IndexError.
Proof.
  induction sentences as [|tokens rest IH]; intros i w; [reflexivity|].
  cbn [write_sentences indexable]. rewrite fst_bind, write_tokens_outcome.
  destruct (fits heads i 0 tokens), (fits deprels i 0 tokens); cbn [andb];
    try reflexivity.
  - rewrite fst_bind. unfold write at 1, modify at 1. cbn [fst snd]. apply IH.
  - now rewrite andb_false_r.
Qed.

(** X1. [write_conll] returns when, for every sentence that has tokens, the
    given heads and the given deprels have a row at the sentence's index
    that reaches its last token; otherwise it raises [IndexError].  Of
    sentences without tokens, and of arguments that are [None], nothing is
    asked. *)
Theorem write_conll_raises_when_out_of_range (writer : string)
    (sentences : list (list Token.t))
    (heads : option (list (list Z))) (deprels : option (list (list string)))
    (w : World) :
  fst (write_conll writer sentences heads deprels w)
  = if indexable heads 0 sentences && indexable deprels 0 sentences then Ok tt
    else Raise IndexError.
Proof.
  unfold write_conll. rewrite fst_bind, write_sentences_outcome.
  now destruct (indexable heads 0 sentences && indexable deprels 0 sentences).
Qed.

(** Sentences without tokens are encoded without any prediction, and a row
    that is too short is an error only when its sentence is reached. *)
Example write_conll_empty_sentences :
  let w := set_files {[ "/tmp/tmpa" := "" ]} (initial "/data/dev.conll" ∅) in
  write_conll "/tmp/tmpa" [[]; []] (Some []) (Some []) w
  = (Ok tt, set_files {[ "/tmp/tmpa" := NL +++ NL ]} w)
  /\ fst (write_conll "/tmp/tmpa" [[dog]; [dog; barks]] (Some [[1]; [1]]) None w)
     = Raise IndexError.
Proof. vm_compute. split; reflexivity. Qed.

(** X2. Whatever its arguments, and also when it raises, [write_conll] adds
    one text at the end of the writer's file and changes nothing else: not
    the evaluator, not the trace, no other file, and not what the file held
    before.  The text depends on the arguments only. *)
Theorem write_conll_appends_only (sentences : list (list Token.t))
    (heads : option (list (list Z))) (deprels : option (list (list string))) :
  exists text, forall writer w old,
    files w !! writer = Some old ->
    snd (write_conll writer sentences heads deprels w)
    = set_files (<[writer := old +++ text]> (files w)) w.
Proof.
  destruct (write_conll_run sentences heads deprels) as (o & text & Hrun).
  exists text. intros writer w old Hopen. now rewrite (Hrun writer w old Hopen).
Qed.

Lemma write_conll_appends_only_witness :
  let w := set_files {[ "/tmp/tmpa" := "# old" ]} (initial "/data/dev.conll" ∅) in
  exists text,
    files (snd (write_conll "/tmp/tmpa" [[dog; barks]] (Some [[0]]) None w))
      !! "/tmp/tmpa" = Some ("# old" +++ text)
    /\ _parsed (snd (write_conll "/tmp/tmpa" [[dog; barks]] (Some [[0]]) None w))
       = _parsed w.
Proof.
  intros w.
  destruct (write_conll_appends_only [[dog; barks]] (Some [[0]]) None)
    as (text & Hrun).
  exists text. rewrite (Hrun "/tmp/tmpa" w "# old" eq_refl).
  split; [apply lookup_insert_eq | reflexivity].
Defined.

(** ** [write_conll]: the file read back *)

(** The decimal numeral of an integer holds digits and at most a sign. *)
Lemma pretty_N_go_contains (c : ascii) (x : N) (s : string) :
  (Unicode.code c < 45)%N ->
  contains c (pretty_N_go x s) = contains c s.
Proof.
  intros Hc. revert s. induction (N.lt_wf_0 x) as [x _ IH]; intros s.
  destruct (decide (x = 0)%N) as [->|Hx]; [reflexivity|].
  rewrite pretty_N_go_step by lia.
  rewrite IH by (apply N.div_lt; lia).
  cbn [contains].
  assert (Hne : Ascii.eqb (pretty_N_char (x `mod` 10)) c = false).
  { apply Ascii.eqb_neq. intros <-. revert Hc.
    unfold pretty_N_char.
    repeat case_match; vm_compute; intros [=]. }
  now rewrite Hne.
Qed.

Lemma str_of_int_contains (c : ascii) (n : Z) :
  (Unicode.code c < 45)%N -> contains c (str_of_int n) = false.
Proof.
  intros Hc. unfold str_of_int, pretty, pretty_Z.
  assert (Hpos : forall p : positive, contains c (pretty p) = false).
  { intros p. unfold pretty, pretty_positive, pretty, pretty_N.
    case_decide; [discriminate|]. now rewrite pretty_N_go_contains. }
  destruct n as [|p|p]; [| apply Hpos |].
  - cbn [contains]. rewrite orb_false_r. apply Ascii.eqb_neq. intros <-.
    revert Hc. vm_compute. intros [=].
  - change ("-" +:+ pretty p) with (String "-" (pretty p)). cbn [contains].
    rewrite Hpos, orb_false_r. apply Ascii.eqb_neq. intros <-.
    revert Hc. vm_compute. intros [=].
Qed.

Lemma contains_join (c : ascii) (sep : string) (parts : list string) :
  contains c sep = false ->
  Forall (fun p => contains c p = false) parts ->
  contains c (join sep parts) = false.
Proof.
  intros Hsep. induction 1 as [|p ps Hp Hps IH]; [reflexivity|].
  destruct ps as [|q qs]; [exact Hp|].
  rewrite join_cons_cons, !contains_app, Hp, Hsep. exact IH.
Qed.

(** The ten fields of a plain token hold no tab and no newline. *)
Lemma plain_token_fields (c : ascii) (t : Token.t) :
  c = "009"%char \/ c = "010"%char ->
  plain_token t = true ->
  Forall (fun field => contains c field = false) (ConllCodec.fields t).
Proof.
  intros Hc Hplain.
  assert (Hcode : (Unicode.code c < 45)%N) by (destruct Hc as [->| ->]; reflexivity).
  assert (Hfield : forall s, plain s = true -> contains c s = false).
  { intros s [Ht Hn]%andb_true_iff.
    apply negb_true_iff in Ht, Hn. now destruct Hc as [->| ->]. }
  unfold plain_token in Hplain. cbn [forallb] in Hplain.
  repeat (apply andb_true_iff in Hplain as [? Hplain]).
  unfold ConllCodec.fields.
  repeat constructor; auto using str_of_int_contains.
Qed.

Lemma token_line_reads_back (t : Token.t) :
  plain_token t = true ->
  contains "010" (join TAB (ConllCodec.fields t)) = false
  /\ split_all "009" (join TAB (ConllCodec.fields t)) = ConllCodec.fields t.
Proof.
  intros Hplain. split.
  - apply contains_join; [reflexivity|]. apply plain_token_fields; auto.
  - unfold ConllCodec.fields at 1. apply (split_all_join "009").
    apply (plain_token_fields "009"); auto.
Qed.

Lemma write_conll_text (writer : string) (sentences : list (list Token.t))
    (heads : option (list (list Z))) (deprels : option (list (list string)))
    (w : World) (old : string) :
  files w !! writer = Some old ->
  covers_if_given heads sentences = true ->
  covers_if_given deprels sentences = true ->
  files (snd (write_conll writer sentences heads deprels w)) !! writer
  = Some (old +++ ConllCodec.encode sentences heads deprels).
Proof.
  intros Hf Hh Hd. unfold write_conll.
  erewrite bind_ok; cycle 1.
  { apply (write_sentences_spec writer heads deprels sentences 0 w old Hf).
    - now destruct heads.
    - now destruct deprels. }
  cbn [flush ret snd set_files files]. rewrite lookup_insert_eq.
  unfold ConllCodec.encode. now destruct heads, deprels.
Qed.

(** The table of an encoding: per sentence the fields of its tokens, then
    the row of an empty line; the last row is the empty rest of the text. *)
Lemma table_of_encoding (sentences : list (list Token.t))
    (heads : option (list (list Z))) (deprels : option (list (list string))) :
  let printed := ConllCodec.override set_deprel deprels
                   (ConllCodec.override set_head heads sentences) in
  Forall (Forall (fun t => plain_token t = true)) printed ->
  table (ConllCodec.encode sentences heads deprels)
  = (flat_map (fun tokens => map ConllCodec.fields tokens ++ [[""]]) printed
     ++ [[""]])%list.
Proof.
  intros printed Hplain. unfold table.
  rewrite encode_lines; fold printed.
  - rewrite map_app. f_equal.
    induction Hplain as [|tokens rest Htokens _ IH]; [reflexivity|].
    cbn [flat_map]. rewrite !map_app, IH. f_equal. f_equal.
    rewrite map_map. apply map_ext_Forall.
    eapply Forall_impl; [exact Htokens|].
    intros t Ht. now apply token_line_reads_back.
  - eapply Forall_impl; [exact Hplain|]. intros tokens Htokens.
    eapply Forall_impl; [exact Htokens|].
    intros t Ht. now apply token_line_reads_back.
Qed.

(** X3. Read back as lines cut at the tabs, the file that [write_conll]
    wrote holds, for every sentence, one row per token with the ten fields
    id, form, lemma, cpostag, postag, feats, head, deprel, phead, pdeprel
    (head and deprel the given ones when given) and then the row of an empty
    line, provided no text field holds a tab or a newline.  The row at the
    end is the empty rest after the last newline. *)
Theorem write_conll_reads_back (writer : string)
    (sentences : list (list Token.t))
    (heads : option (list (list Z))) (deprels : option (list (list string)))
    (w : World) :
  files w !! writer = Some "" ->
  covers_if_given heads sentences = true ->
  covers_if_given deprels sentences = true ->
  let printed := ConllCodec.override set_deprel deprels
                   (ConllCodec.override set_head heads sentences) in
  Forall (Forall (fun t => plain_token t = true)) printed ->
  exists text,
    files (snd (write_conll writer sentences heads deprels w)) !! writer
    = Some text
    /\ table text
       = (flat_map (fun tokens => map ConllCodec.fields tokens ++ [[""]]) printed
          ++ [[""]])%list.
Proof.
  intros Hopen Hh Hd printed Hplain.
  exists (ConllCodec.encode sentences heads deprels). split.
  - now rewrite (write_conll_text writer sentences heads deprels w "" Hopen Hh Hd).
  - now apply table_of_encoding.
Qed.

Lemma write_conll_reads_back_witness :
  let w := set_files {[ "/tmp/tmpa" := "" ]} (initial "/data/dev.conll" ∅) in
  exists text,
    files (snd (write_conll "/tmp/tmpa" [[dog; barks]; []] (Some [[0; 1]; []]) None w))
      !! "/tmp/tmpa" = Some text
    /\ table text
       = [ ["1"; "Dog"; "dog"; "NOUN"; "NN"; "_"; "0"; "nsubj"; "_"; "_"];
           ["2"; "barks"; "bark"; "VERB"; "VBZ"; "_"; "1"; "root"; "_"; "_"];
           [""]; [""]; [""] ].
Proof.
  intros w.
  destruct (write_conll_reads_back "/tmp/tmpa" [[dog; barks]; []]
              (Some [[0; 1]; []]) None w eq_refl eq_refl eq_refl)
    as (text & Hfile & Htable).
  - repeat constructor.
  - exists text. split; [exact Hfile|]. rewrite Htable. reflexivity.
Defined.

(** A token is determined by its ten fields. *)
Lemma fields_inj (t1 t2 : Token.t) :
  ConllCodec.fields t1 = ConllCodec.fields t2 -> t1 = t2.
Proof.
  destruct t1, t2. unfold ConllCodec.fields, str_of_int. cbn.
  intros [= Hid -> -> -> -> -> Hhead -> -> ->].
  apply (inj pretty) in Hid, Hhead. now subst.
Qed.

(** Blocks closed by a terminator that occurs in none of them can be told
    apart again. *)
Lemma terminated_blocks_inj {A} (stop : A) (a b : list (list A)) :
  Forall (Forall (fun x => x <> stop)) a ->
  Forall (Forall (fun x => x <> stop)) b ->
  flat_map (fun l => l ++ [stop])%list a = flat_map (fun l => l ++ [stop])%list b ->
  a = b.
Proof.
  intros Ha. revert b. induction Ha as [|l a' Hl _ IH]; intros b Hb Heq.
  - destruct b as [|m b']; [reflexivity|].
    cbn [flat_map] in Heq. now destruct m.
  - destruct Hb as [|m b' Hm Hb']; [cbn [flat_map] in Heq; now destruct l|].
    cbn [flat_map] in Heq.
    assert (Hsplit : l = m
                     /\ flat_map (fun l => l ++ [stop])%list a'
                        = flat_map (fun l => l ++ [stop])%list b').
    { clear IH Hb'. revert m Hm Heq.
      induction Hl as [|x l' Hx _ IHl]; intros m Hm Heq.
      - destruct Hm as [|y m' Hy _]; cbn in Heq.
        + injection Heq as Heq. now split.
        + injection Heq as Hstop _. congruence.
      - destruct Hm as [|y m' Hy Hm']; cbn in Heq.
        + injection Heq as Hstop _. congruence.
        + injection Heq as -> Heq.
          destruct (IHl m' Hm' Heq) as [-> Hrest]. now split. }
    destruct Hsplit as [-> Hrest]. f_equal. now apply IH.
Qed.

Lemma map_fields_inj (s1 s2 : list Token.t) :
  map ConllCodec.fields s1 = map ConllCodec.fields s2 -> s1 = s2.
Proof.
  revert s2. induction s1 as [|t1 s1 IH]; intros [|t2 s2] Heq;
    try discriminate; [reflexivity|].
  rewrite !map_cons in Heq.
  assert (Ht : ConllCodec.fields t1 = ConllCodec.fields t2) by congruence.
  assert (Hrest : map ConllCodec.fields s1 = map ConllCodec.fields s2)
    by congruence.
  apply fields_inj in Ht. apply IH in Hrest. now subst.
Qed.

Lemma map_map_fields_inj (ss1 ss2 : list (list Token.t)) :
  map (map ConllCodec.fields) ss1 = map (map ConllCodec.fields) ss2 -> ss1 = ss2.
Proof.
  revert ss2. induction ss1 as [|s1 ss1 IH]; intros [|s2 ss2] Heq;
    try discriminate; [reflexivity|].
  rewrite !map_cons in Heq.
  assert (Hs : map ConllCodec.fields s1 = map ConllCodec.fields s2) by congruence.
  assert (Hrest : map (map ConllCodec.fields) ss1 = map (map ConllCodec.fields) ss2)
    by congruence.
  apply map_fields_inj in Hs. apply IH in Hrest. now subst.
Qed.

Lemma fields_not_blank (t : Token.t) : ConllCodec.fields t <> [""].
Proof. discriminate. Qed.

(** X4. Encoding with no overrides loses nothing: two sequences of
    sentences whose text fields hold no tab and no newline, written by
    [write_conll] into empty files, give the same text only if they are the
    same sentences. *)
Theorem write_conll_is_lossless (writer1 writer2 : string)
    (sentences1 sentences2 : list (list Token.t)) (w1 w2 : World) :
  files w1 !! writer1 = Some "" ->
  files w2 !! writer2 = Some "" ->
  Forall (Forall (fun t => plain_token t = true)) sentences1 ->
  Forall (Forall (fun t => plain_token t = true)) sentences2 ->
  files (snd (write_conll writer1 sentences1 None None w1)) !! writer1
  = files (snd (write_conll writer2 sentences2 None None w2)) !! writer2 ->
  sentences1 = sentences2.
Proof.
  intros Hopen1 Hopen2 Hplain1 Hplain2.
  rewrite (write_conll_text writer1 sentences1 None None w1 "" Hopen1 eq_refl eq_refl).
  rewrite (write_conll_text writer2 sentences2 None None w2 "" Hopen2 eq_refl eq_refl).
  intros [= Htext].
  change ("" +++ ConllCodec.encode sentences1 None None)
    with (ConllCodec.encode sentences1 None None) in Htext.
  change ("" +++ ConllCodec.encode sentences2 None None)
    with (ConllCodec.encode sentences2 None None) in Htext.
  apply (f_equal table) in Htext.
  rewrite (table_of_encoding sentences1 None None Hplain1) in Htext.
  rewrite (table_of_encoding sentences2 None None Hplain2) in Htext.
  cbn [ConllCodec.override] in Htext.
  apply app_inv_tail in Htext.
  assert (Hblocks : forall ss : list (list Token.t),
    flat_map (fun tokens => map ConllCodec.fields tokens ++ [[""]])%list ss
    = flat_map (fun rows => rows ++ [[""]])%list (map (map ConllCodec.fields) ss)).
  { induction ss as [|s ss IH]; [reflexivity|]. cbn [flat_map map]. now rewrite IH. }
  rewrite !Hblocks in Htext.
  apply terminated_blocks_inj in Htext.
  - now apply map_map_fields_inj.
  - apply Forall_map. eapply Forall_impl; [exact Hplain1|].
    intros tokens _. apply Forall_map. apply Forall_forall.
    intros t _. apply fields_not_blank.
  - apply Forall_map. eapply Forall_impl; [exact Hplain2|].
    intros tokens _. apply Forall_map. apply Forall_forall.
    intros t _. apply fields_not_blank.
Qed.

Lemma write_conll_is_lossless_witness :
  let w := set_files {[ "/tmp/tmpa" := "" ]} (initial "/data/dev.conll" ∅) in
  files (snd (write_conll "/tmp/tmpa" [[dog; barks]] None None w)) !! "/tmp/tmpa"
  = files (snd (write_conll "/tmp/tmpa" [[dog; barks]] None None w)) !! "/tmp/tmpa"
  /\ [[dog; barks]] = [[dog; barks]].
Proof.
  intros w. split; [reflexivity|].
  apply (write_conll_is_lossless "/tmp/tmpa" "/tmp/tmpa" [[dog; barks]]
           [[dog; barks]] w w eq_refl eq_refl).
  - repeat constructor.
  - repeat constructor.
  - reflexivity.
Defined.

(** ** [exec_eval]: what of the output it reads *)

Section Output.

Variable sep : ascii.

(** A text that holds the separator has at least two pieces. *)
Lemma split_contains_length (n : nat) (s : string) :
  contains sep s = true -> (2 <= length (split sep (S n) s))%nat.
Proof.
  induction s as [|c s IH]; [discriminate|].
  cbn [contains split]. destruct (Ascii.eqb c sep) eqn:Hc.
  - intros _. cbn [length].
    destruct (split sep n s) eqn:Hs; [now apply split_not_nil in Hs|].
    cbn [length]. lia.
  - cbn [orb]. intros Hs. specialize (IH Hs).
    destruct (split sep (S n) s) as [|h t]; [cbn in IH; lia|]. exact IH.
Qed.

Lemma rsplit_length (n : nat) (s : string) :
  length (rsplit sep n s) = length (split sep n (reverse s)).
Proof. unfold rsplit. now rewrite length_rev, length_map. Qed.

(** [line.rsplit(sep, 2)[-2]] exists exactly when the line holds the
    separator. *)
Lemma index_neg2_rsplit (s : string) :
  (exists field, index_neg2 (rsplit sep 2 s) = Ok field) <-> contains sep s = true.
Proof.
  unfold index_neg2. split.
  - intros [field Hfield].
    destruct (contains sep s) eqn:Hc; [reflexivity|].
    rewrite rsplit_length, split_free in Hfield by now rewrite contains_reverse.
    discriminate.
  - intros Hc.
    assert (Hlen : (2 <= length (rsplit sep 2 s))%nat).
    { rewrite rsplit_length. apply split_contains_length.
      now rewrite contains_reverse. }
    apply Nat.leb_le in Hlen as Hlenb. rewrite Hlenb. unfold index.
    destruct (lookup_lt_is_Some_2 (rsplit sep 2 s) (length (rsplit sep 2 s) - 2))
      as [field Hfield]; [lia|].
    exists field. now rewrite Hfield.
Qed.

End Output.

Section OutputOfScorer.

Context {X : Type} (E : Env X).

(** X5. A report of one line is never accepted: when the scorer exits with
    code 0 and its output holds no newline, [exec_eval] raises, [IndexError]
    when the line holds no space and [ValueError] when it does (be the field
    a number or not, there is no second value to unpack). *)
Theorem exec_eval_rejects_one_line
    (parsed_file gold_file : string) (show_details : bool) (w : World)
    (output : string) :
  returncode (answer E parsed_file gold_file show_details w) = 0 ->
  Unicode.decode (stdout (answer E parsed_file gold_file show_details w))
  = Some output ->
  contains "010" output = false ->
  fst (exec_eval E parsed_file gold_file show_details w)
  = Raise (if contains " " output then ValueError else IndexError).
Proof.
  intros Hcode Hout Hline.
  rewrite exec_eval_outcome. unfold interpret, decode.
  rewrite Hcode. cbn [Z.eqb]. rewrite Hout. cbn [obind].
  unfold parse_scores. rewrite (split_free "010" 2 output Hline).
  cbn [take comprehension].
  destruct (contains " " output) eqn:Hspace.
  - apply (index_neg2_rsplit " ") in Hspace as [field Hfield].
    rewrite Hfield. cbn [obind]. unfold float.
    now destruct (PyFloat.float field).
  - destruct (index_neg2 (rsplit " " 2 output)) as [field|e] eqn:Hfield.
    + assert (Hsome : contains " " output = true)
        by (apply (index_neg2_rsplit " "); eauto).
      congruence.
    + unfold index_neg2 in Hfield.
      destruct (2 <=? length (rsplit " " 2 output))%nat; [|now injection Hfield as <-].
      unfold index in Hfield. now destruct (_ !! _); [|injection Hfield as <-].
Qed.

(** The scores are read off the first two lines. *)
Lemma parse_scores_two_lines (output output' l1 l2 : string)
    (more more' : list string) :
  split_all "010" output = l1 :: l2 :: more ->
  split_all "010" output' = l1 :: l2 :: more' ->
  parse_scores output = parse_scores output'.
Proof.
  intros H H'. unfold parse_scores. now rewrite !take_split_all, H, H'.
Qed.

(** X6. [exec_eval] reads the first two lines of the output and nothing
    after them: two runs that exit with code 0 and whose outputs begin with
    the same two lines give the same UAS and LAS, or raise the same
    exception. *)
Theorem exec_eval_reads_two_lines_only
    (parsed_file gold_file : string) (show_details : bool) (w : World)
    (parsed_file' gold_file' : string) (show_details' : bool) (w' : World)
    (output output' l1 l2 : string) (more more' : list string) :
  returncode (answer E parsed_file gold_file show_details w) = 0 ->
  returncode (answer E parsed_file' gold_file' show_details' w') = 0 ->
  Unicode.decode (stdout (answer E parsed_file gold_file show_details w))
  = Some output ->
  Unicode.decode (stdout (answer E parsed_file' gold_file' show_details' w'))
  = Some output' ->
  split_all "010" output = l1 :: l2 :: more ->
  split_all "010" output' = l1 :: l2 :: more' ->
  match fst (exec_eval E parsed_file gold_file show_details w),
        fst (exec_eval E parsed_file' gold_file' show_details' w') with
  | Ok r, Ok r' =>
      Result.UAS r = Result.UAS r' /\ Result.LAS r = Result.LAS r'
  | Raise e, Raise e' => e = e'
  | _, _ => False
  end.
Proof.
  intros Hcode Hcode' Hout Hout' Hlines Hlines'.
  rewrite !exec_eval_outcome. unfold interpret, decode.
  rewrite Hcode, Hcode'. cbn [Z.eqb]. rewrite Hout, Hout'. cbn [obind].
  rewrite (parse_scores_two_lines output output' l1 l2 more more' Hlines Hlines').
  now destruct (parse_scores output').
Qed.

End OutputOfScorer.

Lemma exec_eval_rejects_one_line_witness :
  fst (exec_eval
         (scripted [ {| returncode := 0; stdout := "score: 88.2 %"; stderr := "" |} ] [])
         "/tmp/hyp" "/data/dev.conll" false (initial "/data/dev.conll" ∅))
  = Raise ValueError.
Proof.
  apply (exec_eval_rejects_one_line
           (scripted [ {| returncode := 0; stdout := "score: 88.2 %"; stderr := "" |} ] [])
           "/tmp/hyp" "/data/dev.conll" false (initial "/data/dev.conll" ∅)
           "score: 88.2 %"); reflexivity.
Defined.

Lemma exec_eval_reads_two_lines_only_witness :
  let env := scripted [eval_pl_report; eval_pl_details] [] in
  let w := initial "/data/dev.conll" ∅ in
  let w' := snd (exec_eval env "/tmp/hyp" "/data/dev.conll" false w) in
  match fst (exec_eval env "/tmp/hyp" "/data/dev.conll" false w),
        fst (exec_eval env "/tmp/hyp" "/data/dev.conll" true w') with
  | Ok r, Ok r' =>
      Result.UAS r = Result.UAS r' /\ Result.LAS r = Result.LAS r'
  | Raise e, Raise e' => e = e'
  | _, _ => False
  end.
Proof.
  intros env w w'.
  apply (exec_eval_reads_two_lines_only env
           "/tmp/hyp" "/data/dev.conll" false w
           "/tmp/hyp" "/data/dev.conll" true w'
           (stdout eval_pl_report) (stdout eval_pl_details)
           "  Labeled   attachment score: 441 / 500 * 100 = 88.20 %"
           "  Unlabeled attachment score: 457 / 500 * 100 = 91.40 %"
           ["  Label accuracy score:       460 / 500 * 100 = 92.00 %"; ""]
           ["  Label accuracy score:       460 / 500 * 100 = 92.00 %"; "";
            "  Evaluation of the results in /tmp/tmp"; ""]);
    vm_compute; reflexivity.
Defined.

(** ** [append]: the invariant it keeps, and what a failing lookup leaves *)

Lemma covers_app {A} (rows rows' : list (list A))
    (sentences sentences' : list (list Token.t)) :
  length rows = length sentences ->
  covers rows sentences = true ->
  covers rows' sentences' = true ->
  covers (rows ++ rows') (sentences ++ sentences') = true.
Proof.
  revert rows. induction sentences as [|tokens rest IH]; intros rows Hlen Hc Hc'.
  - destruct rows; [exact Hc' | discriminate].
  - destruct rows as [|row rows]; [discriminate|].
    cbn [covers app] in *. apply andb_true_iff in Hc as [Hrow Hrest].
    rewrite Hrow. cbn [andb]. apply IH; [now injection Hlen | assumption..].
Qed.

Lemma covers_of_lengths {A B} (f : B -> list A) (sentences : list (list Token.t))
    (l : list B) :
  Forall2 (fun tokens x => (length tokens <= length (f x))%nat) sentences l ->
  covers (map f l) sentences = true.
Proof.
  induction 1 as [|tokens x rest l' Hlen _ IH]; [reflexivity|].
  cbn [map covers]. apply andb_true_iff. split; [now apply Nat.leb_le | exact IH].
Qed.

Section AccumulateMore.

Context {X : Type} (E : Env X).

(** The world after an [append] that succeeds. *)
Lemma append_ok (sentences : list (list Token.t))
    (parsed : list (list Z * list Z)) (w : World) :
  parsed <> [] ->
  Forall (Forall (has_label E)) (map snd parsed) ->
  exists labelss,
    Forall2 (Forall2 (stored_label E)) (map snd parsed) labelss
    /\ append E sentences parsed w
       = (Ok tt,
          set_parsed
            {| Parsed.sentences := (Parsed.sentences (_parsed w) ++ sentences)%list;
               Parsed.heads := (Parsed.heads (_parsed w) ++ map fst parsed)%list;
               Parsed.deprels := (Parsed.deprels (_parsed w) ++ labelss)%list;
               Parsed.UAS := Parsed.UAS (_parsed w);
               Parsed.LAS := Parsed.LAS (_parsed w) |} w).
Proof.
  intros Hne Hlabels.
  destruct (extend_labels_ok E (map snd parsed) Hlabels) as (lss & Hall & Hrun).
  exists lss. split; [exact Hall|].
  unfold append, bind, lift, unzip_parsed.
  destruct parsed as [|pr parsed']; [congruence|].
  unfold extend_sentences at 1, modify at 1.
  unfold extend_heads at 1, modify at 1. cbn [fst snd].
  now rewrite Hrun.
Qed.

(** Aligned predictions stay aligned when a well-shaped batch and its
    labels are added. *)
Lemma aligned_extended (p : Parsed.t) (sentences : list (list Token.t))
    (parsed : list (list Z * list Z)) (lss : list (list string)) :
  aligned p = true ->
  well_shaped sentences parsed ->
  Forall2 (Forall2 (stored_label E)) (map snd parsed) lss ->
  aligned {| Parsed.sentences := (Parsed.sentences p ++ sentences)%list;
             Parsed.heads := (Parsed.heads p ++ map fst parsed)%list;
             Parsed.deprels := (Parsed.deprels p ++ lss)%list;
             Parsed.UAS := Parsed.UAS p;
             Parsed.LAS := Parsed.LAS p |} = true.
Proof.
  intros Haligned Hshape Hall.
  unfold aligned, parallel in *. cbn [Parsed.sentences Parsed.heads Parsed.deprels].
  apply andb_true_iff in Haligned as [Hlens [Hch Hcd]%andb_true_iff].
  apply andb_true_iff in Hlens as [Hlh%Nat.eqb_eq Hld%Nat.eqb_eq].
  assert (Hlen : length sentences = length parsed) by (eapply Forall2_length; eauto).
  assert (Hlss : length lss = length parsed).
  { apply Forall2_length in Hall. now rewrite length_map in Hall. }
  rewrite !length_app, length_map, Hlh, Hld, Hlss, Hlen, !Nat.eqb_refl.
  cbn [andb]. apply andb_true_iff. split.
  - apply covers_app; [assumption..|].
    apply covers_of_lengths. eapply Forall2_impl; [exact Hshape|]. now intros ? ? [? ?].
  - apply covers_app; [assumption..|].
    rewrite <- (map_id lss). apply covers_of_lengths.
    clear -Hshape Hall. revert lss Hall.
    induction Hshape as [|tokens pr rest parsed' [_ Hd] _ IH]; intros lss Hall.
    + inversion Hall; subst. constructor.
    + cbn [map] in Hall. inversion Hall as [|? ls ? lss' Hrow Hrest]; subst.
      constructor; [|now apply IH].
      apply Forall2_length in Hrow. unfold id. lia.
Qed.

(** X7. [append] keeps the accumulated sequences aligned: from a state in
    which sentences, heads and deprels have one length and every prediction
    reaches the last token of its sentence, a batch with as many predictions
    as sentences, each reaching the last token, and with ids that the map
    knows, leads to such a state again.  The stored scores are not touched:
    [append] does not unset UAS and LAS. *)
Theorem append_keeps_aligned (sentences : list (list Token.t))
    (parsed : list (list Z * list Z)) (w : World) :
  aligned (_parsed w) = true ->
  parsed <> [] ->
  well_shaped sentences parsed ->
  Forall (Forall (has_label E)) (map snd parsed) ->
  exists w',
    append E sentences parsed w = (Ok tt, w')
    /\ aligned (_parsed w') = true
    /\ Parsed.sentences (_parsed w')
       = (Parsed.sentences (_parsed w) ++ sentences)%list
    /\ Parsed.heads (_parsed w')
       = (Parsed.heads (_parsed w) ++ map fst parsed)%list
    /\ Parsed.UAS (_parsed w') = Parsed.UAS (_parsed w)
    /\ Parsed.LAS (_parsed w') = Parsed.LAS (_parsed w).
Proof.
  intros Haligned Hne Hshape Hlabels.
  destruct (append_ok sentences parsed w Hne Hlabels) as (lss & Hall & Hrun).
  eexists. split; [exact Hrun|].
  split; [|now repeat split].
  exact (aligned_extended (_parsed w) sentences parsed lss Haligned Hshape Hall).
Qed.

End AccumulateMore.

Lemma append_keeps_aligned_witness :
  let env := scripted [] [] in
  let w := initial "/data/dev.conll" ∅ in
  exists w',
    append env [[dog; barks]] [([2; 0], [2; 1])] w = (Ok tt, w')
    /\ aligned (_parsed w') = true.
Proof.
  intros env w.
  destruct (append_keeps_aligned env [[dog; barks]] [([2; 0], [2; 1])] w)
    as (w' & Hrun & Haligned & _).
  - reflexivity.
  - discriminate.
  - constructor; [cbn; lia | constructor].
  - constructor; [|constructor].
    constructor; [exists "nsubj"; reflexivity|].
    constructor; [exists "root"; reflexivity|]. constructor.
  - exists w'. now split.
Defined.

Section LookupFailure.

Context {X : Type} (E : Env X).

Lemma label_outcome (d : Z) :
  (exists l, label E d = Ok l /\ has_label E d)
  \/ (label E d = Raise LookupError /\ ~ has_label E d).
Proof.
  unfold label, has_label.
  destruct (deprel_map_lookup E (if 0 <? d then d else 0)) as [l|].
  - left. exists l. split; [reflexivity | eauto].
  - right. split; [reflexivity | intros [? [=]]].
Qed.

Lemma comprehension_label_fails (deprel : list Z) :
  ~ Forall (has_label E) deprel ->
  comprehension (label E) deprel = Raise LookupError.
Proof.
  induction deprel as [|d rest IH]; intros Hnot.
  - exfalso. apply Hnot. constructor.
  - cbn [comprehension].
    destruct (label_outcome d) as [(l & Hl & Hd)|[Hl _]]; rewrite Hl; [|reflexivity].
    cbn [obind]. rewrite IH; [reflexivity|].
    intros Hrest. apply Hnot. now constructor.
Qed.

Lemma extend_labels_app (done rest : list (list Z)) (w : World) :
  extend_labels E (done ++ rest) w
  = bind (extend_labels E done) (fun _ => extend_labels E rest) w.
Proof.
  revert w. induction done as [|deprel done' IH]; intros w; [reflexivity|].
  cbn [app extend_labels]. unfold bind at 1 3. unfold lift.
  destruct (comprehension (label E) deprel) as [ls|e]; [|reflexivity].
  unfold bind at 1 3. unfold extend_deprels at 1 2, modify at 1 2.
  apply IH.
Qed.

(** X8. A lookup that fails does not undo what [append] has done: when the
    map raises for an id of some sentence, [append] raises with the batch
    added to the sentences, all predicted heads added to the heads, and the
    labels of the sentences before the failing one, and only these, added to
    the deprels. *)
Theorem append_stops_at_unknown_id (sentences : list (list Token.t))
    (before after : list (list Z * list Z)) (failing : list Z * list Z)
    (w : World) :
  Forall (Forall (has_label E)) (map snd before) ->
  ~ Forall (has_label E) (snd failing) ->
  exists labelss,
    Forall2 (Forall2 (stored_label E)) (map snd before) labelss
    /\ append E sentences (before ++ failing :: after) w
       = (Raise LookupError,
          set_parsed
            {| Parsed.sentences := (Parsed.sentences (_parsed w) ++ sentences)%list;
               Parsed.heads := (Parsed.heads (_parsed w)
                                ++ map fst (before ++ failing :: after))%list;
               Parsed.deprels := (Parsed.deprels (_parsed w) ++ labelss)%list;
               Parsed.UAS := Parsed.UAS (_parsed w);
               Parsed.LAS := Parsed.LAS (_parsed w) |} w).
Proof.
  intros Hbefore Hfailing.
  destruct (extend_labels_ok E (map snd before) Hbefore) as (lss & Hall & Hrun).
  exists lss. split; [exact Hall|].
  unfold append, bind at 1 2 3, lift, unzip_parsed.
  unfold extend_sentences at 1, modify at 1.
  assert (Hne : (before ++ failing :: after)%list <> []) by now destruct before.
  destruct (before ++ failing :: after)%list as [|pr rest] eqn:Hparsed; [congruence|].
  rewrite <- Hparsed. clear pr rest Hparsed Hne.
  unfold extend_heads at 1, modify at 1. cbn [fst snd].
  rewrite map_app, map_cons, extend_labels_app. unfold bind at 1.
  rewrite Hrun. cbn [extend_labels]. unfold bind at 1, lift.
  rewrite (comprehension_label_fails (snd failing) Hfailing).
  unfold extend_deprels, modify. cbn. now rewrite map_app.
Qed.

End LookupFailure.

Lemma append_stops_at_unknown_id_witness :
  let env := scripted [] [] in
  let w := initial "/data/dev.conll" ∅ in
  fst (append env [[dog]; [barks]; [dog]] [([0], [2]); ([0], [7]); ([0], [1])] w)
  = Raise LookupError
  /\ Parsed.deprels
       (_parsed (snd (append env [[dog]; [barks]; [dog]]
                        [([0], [2]); ([0], [7]); ([0], [1])] w)))
     = [["nsubj"]].
Proof.
  intros env w.
  destruct (append_stops_at_unknown_id env [[dog]; [barks]; [dog]]
              [([0], [2])] [([0], [1])] ([0], [7]) w)
    as (labelss & Hall & Hrun).
  - constructor; [|constructor].
    constructor; [exists "nsubj"; reflexivity | constructor].
  - intros Hall. inversion Hall as [|? ? [l Hl] _]; subst. discriminate Hl.
  - change ([([0], [2])] ++ ([0], [7]) :: [([0], [1])])%list
      with [([0], [2]); ([0], [7]); ([0], [1])] in Hrun.
    rewrite Hrun. split; [reflexivity|]. cbn.
    inversion Hall as [|ids ls ? rest Hrow Hrest]; subst.
    inversion Hrest; subst.
    inversion Hrow as [|d l ? ls' [Hpos _] Hrow']; subst.
    inversion Hrow'; subst.
    specialize (Hpos eq_refl). cbn in Hpos. now injection Hpos as <-.
Defined.

(** ** [report]: what it keeps, how often it scores and logs *)

Section ReportMore.

Context {X : Type} (E : Env X).

(** How the encoding of the hypothesis ends, on any open file. *)
Lemma hypothesis_encoding (p : Parsed.t) :
  exists text, forall f w old, files w !! f = Some old ->
    write_conll f (Parsed.sentences p) (Some (Parsed.heads p))
      (Some (Parsed.deprels p)) w
    = (if encodable p then Ok tt else Raise IndexError,
       set_files (<[f := old +++ text]> (files w)) w).
Proof.
  destruct (write_conll_run (Parsed.sentences p) (Some (Parsed.heads p))
              (Some (Parsed.deprels p))) as (o & text & Hrun).
  exists text. intros f w old Hopen.
  rewrite (Hrun f w old Hopen). f_equal.
  assert (Hfst : fst (write_conll f (Parsed.sentences p) (Some (Parsed.heads p))
                        (Some (Parsed.deprels p)) w) = o)
    by now rewrite (Hrun f w old Hopen).
  rewrite <- Hfst. unfold write_conll.
  rewrite fst_bind, write_sentences_outcome. unfold encodable.
  now destruct (indexable _ 0 _ && indexable _ 0 _).
Qed.

Lemma runs_add_event (e : event) (w : World) :
  runs (add_event e w) = (runs w + (if is_run e then 1 else 0))%nat.
Proof.
  unfold runs. cbn [add_event trace]. rewrite filter_app, length_app.
  cbn [filter]. unfold filter. cbn. now destruct (is_run e).
Qed.

Lemma logs_add_event (e : event) (w : World) :
  logs (add_event e w) = (logs w + (if is_log e then 1 else 0))%nat.
Proof.
  unfold logs. cbn [add_event trace]. rewrite filter_app, length_app.
  unfold filter. cbn. now destruct (is_log e).
Qed.

Lemma after_call_counts parsed_file gold_file show_details (w : World) :
  runs (after_call E parsed_file gold_file show_details w) = S (runs w)
  /\ logs (after_call E parsed_file gold_file show_details w) = logs w
  /\ _parsed (after_call E parsed_file gold_file show_details w) = _parsed w
  /\ _gold_file (after_call E parsed_file gold_file show_details w) = _gold_file w.
Proof.
  unfold after_call, announce. rewrite !runs_add_event, !logs_add_event.
  cbn [is_run is_log]. repeat split; lia.
Qed.

Lemma concluded_counts (r : Result.t) (w : World) :
  runs (concluded r w) = runs w /\ logs (concluded r w) = S (logs w).
Proof.
  unfold concluded. destruct (Result.code r =? 0);
    rewrite runs_add_event, logs_add_event; cbn [is_run is_log];
    unfold runs, logs; cbn [trace set_parsed]; split; lia.
Qed.

(** The paths of [report] from any state. *)
Lemma report_cases (show_details : bool) (w : World) :
  exists text,
    let f := hypothesis_file E w in
    let wh := set_files (<[f := text]> (files w)) w in
    let wa := after_call E f (_gold_file w) show_details wh in
    let g := tempfile_name E wa in
    let wg := set_files (<[g := gold_text (_parsed w)]> (files wa)) wa in
    let wb := after_call E f g show_details wg in
    report E show_details w =
    if encodable (_parsed w) then
      match interpret (answer E f (_gold_file w) show_details wh) with
      | Raise e => (Raise e, set_files (delete f (files wa)) wa)
      | Ok r1 =>
          if Result.code r1 =? 0
          then (Ok tt, concluded r1 (set_files (delete f (files wa)) wa))
          else
            match interpret (answer E f g show_details wg) with
            | Raise e => (Raise e, set_files (delete f (delete g (files wb))) wb)
            | Ok r2 =>
                (Ok tt, concluded r2 (set_files (delete f (delete g (files wb))) wb))
            end
      end
    else (Raise IndexError, set_files (delete f (files wh)) wh).
Proof.
  destruct (hypothesis_encoding (_parsed w)) as (text & Hrun).
  exists text. intros f wh wa g wg wb.
  rewrite (report_unfold E show_details w _ text Hrun).
  now destruct (encodable (_parsed w)).
Qed.

Lemma with_scores_predictions (r : Result.t) (p : Parsed.t) :
  Parsed.sentences (with_scores r p) = Parsed.sentences p
  /\ Parsed.heads (with_scores r p) = Parsed.heads p
  /\ Parsed.deprels (with_scores r p) = Parsed.deprels p.
Proof. now repeat split. Qed.

(** X9. Whatever the scorer answers and however it ends, [report] leaves
    the accumulated sentences, heads and deprels and the configured gold file
    as they were: a report can be repeated, and predictions can be added
    after it. *)
Theorem report_keeps_predictions (show_details : bool) (w : World) :
  let w' := snd (report E show_details w) in
  Parsed.sentences (_parsed w') = Parsed.sentences (_parsed w)
  /\ Parsed.heads (_parsed w') = Parsed.heads (_parsed w)
  /\ Parsed.deprels (_parsed w') = Parsed.deprels (_parsed w)
  /\ _gold_file w' = _gold_file w.
Proof.
  destruct (report_cases show_details w) as (text & Hreport).
  cbv zeta in Hreport. cbv zeta. rewrite Hreport. clear Hreport.
  destruct (encodable (_parsed w)); [|now repeat split].
  destruct (interpret _) as [r1|e]; [|now repeat split].
  destruct (Result.code r1 =? 0) eqn:Hc1.
  - cbn [snd]. rewrite concluded_parsed, concluded_gold_file, Hc1.
    now repeat split.
  - destruct (interpret _) as [r2|e]; [|now repeat split].
    cbn [snd]. rewrite concluded_parsed, concluded_gold_file.
    destruct (Result.code r2 =? 0); now repeat split.
Qed.

(** X10. [report] starts the scorer once or twice when the accumulated
    predictions can be encoded, and not at all when they cannot: then it
    raises [IndexError] with nothing added to the trace.  It logs one message
    when it returns and none when it raises. *)
Theorem report_scores_and_logs (show_details : bool) (w : World) :
  let after := report E show_details w in
  (if encodable (_parsed w)
   then (runs w + 1 <= runs (snd after) <= runs w + 2)%nat
   else fst after = Raise IndexError /\ trace (snd after) = trace w)
  /\ logs (snd after)
     = (logs w + match fst after with Ok _ => 1 | Raise _ => 0 end)%nat.
Proof.
  destruct (report_cases show_details w) as (text & Hreport).
  cbv zeta in Hreport. cbv zeta. rewrite Hreport. clear Hreport.
  set (f := hypothesis_file E w).
  set (wh := set_files (<[f:=text]> (files w)) w).
  destruct (after_call_counts f (_gold_file w) show_details wh)
    as (Hra & Hla & _).
  set (wa := after_call E f (_gold_file w) show_details wh) in *.
  set (g := tempfile_name E wa).
  set (wg := set_files (<[g:=gold_text (_parsed w)]> (files wa)) wa).
  destruct (after_call_counts f g show_details wg) as (Hrb & Hlb & _).
  set (wb := after_call E f g show_details wg) in *.
  assert (Hrh : runs wh = runs w) by reflexivity.
  assert (Hlh : logs wh = logs w) by reflexivity.
  assert (Hrg : runs wg = runs wa) by reflexivity.
  assert (Hlg : logs wg = logs wa) by reflexivity.
  destruct (encodable (_parsed w)).
  2:{ split; [now split|]. cbn [fst snd].
      change (logs (set_files (delete f (files wh)) wh)) with (logs w). lia. }
  destruct (interpret _) as [r1|e].
  - destruct (Result.code r1 =? 0).
    + cbn [fst snd].
      destruct (concluded_counts r1 (set_files (delete f (files wa)) wa)) as [-> ->].
      change (runs (set_files (delete f (files wa)) wa)) with (runs wa).
      change (logs (set_files (delete f (files wa)) wa)) with (logs wa).
      lia.
    + destruct (interpret _) as [r2|e]; cbn [fst snd].
      * destruct (concluded_counts r2 (set_files (delete f (delete g (files wb))) wb))
          as [-> ->].
        change (runs (set_files (delete f (delete g (files wb))) wb)) with (runs wb).
        change (logs (set_files (delete f (delete g (files wb))) wb)) with (logs wb).
        lia.
      * change (runs (set_files (delete f (delete g (files wb))) wb)) with (runs wb).
        change (logs (set_files (delete f (delete g (files wb))) wb)) with (logs wb).
        lia.
  - cbn [fst snd].
    change (runs (set_files (delete f (files wa)) wa)) with (runs wa).
    change (logs (set_files (delete f (files wa)) wa)) with (logs wa).
    lia.
Qed.

(** A result with exit code 0 carries both scores. *)
Lemma interpret_scores (c : CompletedProcess) (r : Result.t) :
  interpret c = Ok r ->
  Result.code r = returncode c
  /\ if Result.code r =? 0
     then is_Some (Result.UAS r) /\ is_Some (Result.LAS r)
     else Result.UAS r = None /\ Result.LAS r = None.
Proof.
  unfold interpret, obind. destruct (decode _) as [output|e]; [|discriminate].
  destruct (returncode c =? 0) eqn:Hc.
  - destruct (parse_scores output) as [scores|e]; [|discriminate].
    intros [= <-]. cbn [Result.code Result.UAS Result.LAS]. rewrite Hc.
    split; [reflexivity|]. split; eexists; reflexivity.
  - intros [= <-]. cbn [Result.code Result.UAS Result.LAS]. rewrite Hc.
    now repeat split.
Qed.

(** The two kinds of message that [report] logs cannot be confused. *)
Lemma messages_differ (r1 r2 : Result.t) :
  success_message r1 <> error_message r2.
Proof.
  unfold success_message, error_message, NL. intros H.
  cbv [String.append] in H. discriminate H.
Qed.

Lemma concluded_last (r : Result.t) (w : World) :
  last (trace (concluded r w))
  = Some (LogInfo (if Result.code r =? 0 then success_message r
                   else error_message r)).
Proof. rewrite concluded_trace. apply last_snoc. Qed.

(** X11. [report] sets UAS and LAS together or not at all, and its last
    log message tells which.  When it raises, the stored predictions and
    scores are as they were.  When it returns, either it has logged the
    success message of a result with exit code 0 whose two scores are numbers,
    and these are now the stored UAS and LAS; or it has logged the error
    message of a result with another exit code, and the stored scores are as
    they were: a report that fails leaves the scores of an earlier report in
    place. *)
Theorem report_sets_both_scores_or_none (show_details : bool) (w : World) :
  let after := report E show_details w in
  match fst after with
  | Raise _ => _parsed (snd after) = _parsed w
  | Ok _ =>
      (exists r,
          Result.code r = 0
          /\ last (trace (snd after)) = Some (LogInfo (success_message r))
          /\ _parsed (snd after) = with_scores r (_parsed w)
          /\ is_Some (Result.UAS r) /\ is_Some (Result.LAS r))
      \/ (exists r,
             Result.code r <> 0
             /\ last (trace (snd after)) = Some (LogInfo (error_message r))
             /\ _parsed (snd after) = _parsed w)
  end.
Proof.
  destruct (report_cases show_details w) as (text & Hreport).
  cbv zeta in Hreport. cbv zeta. rewrite Hreport. clear Hreport.
  destruct (encodable (_parsed w)); [|reflexivity].
  destruct (interpret _) as [r1|e] eqn:H1; [|reflexivity].
  apply interpret_scores in H1 as [_ H1].
  destruct (Result.code r1 =? 0) eqn:Hc1.
  - cbn [fst snd]. left. exists r1.
    rewrite concluded_last, concluded_parsed, Hc1.
    apply Z.eqb_eq in Hc1. destruct H1 as [Hu Hl]. now repeat split.
  - destruct (interpret _) as [r2|e] eqn:H2; [|reflexivity].
    apply interpret_scores in H2 as [_ H2].
    cbn [fst snd]. rewrite concluded_last, concluded_parsed.
    destruct (Result.code r2 =? 0) eqn:Hc2.
    + left. exists r2. apply Z.eqb_eq in Hc2. destruct H2 as [Hu Hl].
      now repeat split.
    + right. exists r2. apply Z.eqb_neq in Hc2. now repeat split.
Qed.

(** X12. Diagnostics that are not UTF-8 end the report: when the first run
    of the scorer fails and its standard error cannot be decoded, or succeeds
    and its standard output cannot be decoded, [report] raises
    [UnicodeDecodeError]; the scorer is not started again, nothing is logged
    and the scores stay as they were. *)
Theorem report_raises_on_undecodable_output (show_details : bool) (w : World) :
  parallel (_parsed w) = true ->
  Unicode.decode
    (if returncode (first_answer E show_details w) =? 0
     then stdout (first_answer E show_details w)
     else stderr (first_answer E show_details w)) = None ->
  let after := report E show_details w in
  fst after = Raise UnicodeDecodeError
  /\ runs (snd after) = S (runs w)
  /\ logs (snd after) = logs w
  /\ _parsed (snd after) = _parsed w.
Proof.
  intros Hpar Hbytes.
  assert (Hfirst : interpret (first_answer E show_details w)
                   = Raise UnicodeDecodeError).
  { unfold interpret, decode. now rewrite Hbytes. }
  cbv zeta. rewrite (report_paths E show_details w Hpar), Hfirst.
  cbn [obind fst snd].
  destruct (after_call_counts (hypothesis_file E w) (_gold_file w) show_details
              (first_world E w)) as (Hr & Hl & Hp & _).
  split; [reflexivity|]. split; [exact Hr|]. split; [exact Hl|]. exact Hp.
Qed.

End ReportMore.

Lemma report_raises_on_undecodable_output_witness :
  let env := scripted [garbled] [] in
  let w := initial "/data/dev.conll" ∅ in
  fst (report env false w) = Raise UnicodeDecodeError
  /\ runs (snd (report env false w)) = 1%nat
  /\ logs (snd (report env false w)) = 0%nat
  /\ _parsed (snd (report env false w)) = _parsed w.
Proof.
  intros env w.
  apply (report_raises_on_undecodable_output env false w); vm_compute; reflexivity.
Defined.

Lemma report_deletes_temporary_files_witness :
  let w := initial "/data/dev.conll" {[ "/data/dev.conll" := "" ]} in
  files (snd (report comparing_env false w)) = files w
  /\ _gold_file (snd (report comparing_env false w)) = _gold_file w.
Proof.
  intros w.
  exact (report_deletes_temporary_files comparing_env false w comparing_env_fresh).
Defined.

(** ** [append]: batches compose *)

Section Batches.

Context {X : Type} (E : Env X).

(** How the loop over the predicted deprels ends, and the labels it has
    added by then, do not depend on the state. *)
Lemma extend_labels_run (deprels : list (list Z)) :
  exists o lss, forall w,
    extend_labels E deprels w = (o, snd (extend_deprels lss w)).
Proof.
  induction deprels as [|deprel rest (o & lss & Hrun)].
  - exists (Ok tt), []. intros w. cbn. unfold ret.
    destruct w as [g [] fs t]. cbn. now rewrite app_nil_r.
  - cbn [extend_labels]. unfold bind, lift.
    destruct (comprehension (label E) deprel) as [ls|e].
    + exists o, (ls :: lss). intros w.
      unfold extend_deprels at 1, modify at 1. rewrite Hrun.
      unfold extend_deprels, modify. cbn. now rewrite <- app_assoc.
    + exists (Raise e), []. intros w.
      destruct w as [g [] fs t]. cbn. now rewrite app_nil_r.
Qed.

(** [append] acts on the accumulated predictions only. *)
Lemma append_frame (sentences : list (list Token.t))
    (parsed : list (list Z * list Z)) (w : World) :
  let w' := snd (append E sentences parsed w) in
  _gold_file w' = _gold_file w /\ files w' = files w /\ trace w' = trace w.
Proof.
  assert (H : exists p', snd (append E sentences parsed w) = set_parsed p' w).
  { unfold append, bind, lift, unzip_parsed.
    unfold extend_sentences at 1, modify at 1.
    destruct parsed as [|pr parsed']; [eexists; reflexivity|].
    unfold extend_heads at 1, modify at 1. cbn [fst snd].
    destruct (extend_labels_run (map snd (pr :: parsed'))) as (o & lss & Hrun).
    rewrite Hrun. eexists. reflexivity. }
  destruct H as (p' & Hp'). cbv zeta. now rewrite Hp'.
Qed.

(** The sentences are added first, whatever follows. *)
Lemma append_sentences (sentences : list (list Token.t))
    (parsed : list (list Z * list Z)) (w : World) :
  Parsed.sentences (_parsed (snd (append E sentences parsed w)))
  = (Parsed.sentences (_parsed w) ++ sentences)%list.
Proof.
  unfold append, bind, lift, unzip_parsed.
  unfold extend_sentences at 1, modify at 1.
  destruct parsed as [|pr parsed']; [reflexivity|].
  unfold extend_heads at 1, modify at 1. cbn [fst snd].
  destruct (extend_labels_run (map snd (pr :: parsed'))) as (o & lss & Hrun).
  rewrite Hrun. reflexivity.
Qed.

(** [append] on a batch with predictions, from the way the loop over the
    predicted deprels ends. *)
Lemma append_explicit (sentences : list (list Token.t))
    (parsed : list (list Z * list Z)) (o : outcome unit)
    (lss : list (list string)) :
  parsed <> [] ->
  (forall w, extend_labels E (map snd parsed) w = (o, snd (extend_deprels lss w))) ->
  forall w,
    append E sentences parsed w
    = (o,
       set_parsed
         {| Parsed.sentences := (Parsed.sentences (_parsed w) ++ sentences)%list;
            Parsed.heads := (Parsed.heads (_parsed w) ++ map fst parsed)%list;
            Parsed.deprels := (Parsed.deprels (_parsed w) ++ lss)%list;
            Parsed.UAS := Parsed.UAS (_parsed w);
            Parsed.LAS := Parsed.LAS (_parsed w) |} w).
Proof.
  intros Hne Hrun w. unfold append, bind, lift, unzip_parsed.
  destruct parsed as [|pr parsed']; [congruence|].
  unfold extend_sentences at 1, modify at 1.
  unfold extend_heads at 1, modify at 1. cbn [fst snd].
  rewrite Hrun. destruct o; reflexivity.
Qed.

Lemma extend_labels_after (done rest : list (list Z)) (o : outcome unit)
    (lss1 lss2 : list (list string)) :
  (forall w, extend_labels E done w = (Ok tt, snd (extend_deprels lss1 w))) ->
  (forall w, extend_labels E rest w = (o, snd (extend_deprels lss2 w))) ->
  forall w, extend_labels E (done ++ rest) w
            = (o, snd (extend_deprels (lss1 ++ lss2) w)).
Proof.
  intros H1 H2 w. rewrite extend_labels_app. unfold bind. rewrite H1, H2.
  unfold extend_deprels, modify. cbn. now rewrite <- app_assoc.
Qed.

(** X13. Batch boundaries do not matter to [append] as long as no batch is
    without predictions: adding two batches one after the other is adding
    their concatenation, also when a lookup fails in the second.  (The labels
    of the first are known, or the second call would not be reached.) *)
Theorem append_batches_compose (sentences1 sentences2 : list (list Token.t))
    (parsed1 parsed2 : list (list Z * list Z)) (w : World) :
  parsed1 <> [] ->
  parsed2 <> [] ->
  Forall (Forall (has_label E)) (map snd parsed1) ->
  bind (append E sentences1 parsed1) (fun _ => append E sentences2 parsed2) w
  = append E (sentences1 ++ sentences2) (parsed1 ++ parsed2) w.
Proof.
  intros Hne1 Hne2 Hlabels.
  destruct (extend_labels_ok E (map snd parsed1) Hlabels) as (lss1 & _ & Hrun1).
  destruct (extend_labels_run (map snd parsed2)) as (o2 & lss2 & Hrun2).
  assert (Hne : (parsed1 ++ parsed2)%list <> []).
  { destruct parsed1; [congruence | discriminate]. }
  assert (Hrun : forall w, extend_labels E (map snd (parsed1 ++ parsed2)) w
                           = (o2, snd (extend_deprels (lss1 ++ lss2) w))).
  { rewrite map_app. now apply extend_labels_after. }
  unfold bind.
  rewrite (append_explicit sentences1 parsed1 (Ok tt) lss1 Hne1 Hrun1 w).
  rewrite (append_explicit sentences2 parsed2 o2 lss2 Hne2 Hrun2).
  rewrite (append_explicit _ _ o2 (lss1 ++ lss2)%list Hne Hrun w).
  cbn [_parsed set_parsed Parsed.sentences Parsed.heads Parsed.deprels
       Parsed.UAS Parsed.LAS].
  now rewrite map_app, <- !app_assoc.
Qed.

End Batches.

Lemma append_batches_compose_witness :
  let env := scripted [] [] in
  let w := initial "/data/dev.conll" ∅ in
  bind (append env [[dog; barks]] [([2; 0], [2; 1])])
       (fun _ => append env [[dog]] [([0], [7])]) w
  = append env [[dog; barks]; [dog]] [([2; 0], [2; 1]); ([0], [7])] w.
Proof.
  intros env w.
  apply (append_batches_compose env [[dog; barks]] [[dog]]
           [([2; 0], [2; 1])] [([0], [7])] w).
  - discriminate.
  - discriminate.
  - constructor; [|constructor].
    constructor; [exists "nsubj"; reflexivity|].
    constructor; [exists "root"; reflexivity|]. constructor.
Defined.

(** ** [main.test]: the loop over the batches and the report *)

Section TestLoop.

Context {X T : Type} (E : Env X).
Variable model_parse : World -> list X -> list (list Token.t) -> list (list Z * list Z).

Lemma test_batches_app (before rest : list (TestBatch X T)) (st : TestState) :
  test_batches E model_parse (before ++ rest) st
  = match test_batches E model_parse before st with
    | (Ok _, st') => test_batches E model_parse rest st'
    | (Raise e, st') => (Raise e, st')
    end.
Proof.
  revert st. induction before as [|batch before' IH]; intros st; [reflexivity|].
  cbn [app test_batches].
  destruct (test_batch E model_parse batch st) as [[[]|e] st']; [apply IH | reflexivity].
Qed.

(** The loop over usable batches. *)
Lemma test_batches_usable (batches : list (TestBatch X T)) (st : TestState) :
  aligned (_parsed (fst st)) = true ->
  Forall (usable_batch E model_parse) batches ->
  exists w1,
    test_batches E model_parse batches st
    = (Ok tt, (w1, (snd st ++ updates batches)%list))
    /\ aligned (_parsed w1) = true
    /\ Parsed.sentences (_parsed w1)
       = (Parsed.sentences (_parsed (fst st)) ++ evaluated batches)%list
    /\ Parsed.UAS (_parsed w1) = Parsed.UAS (_parsed (fst st))
    /\ Parsed.LAS (_parsed w1) = Parsed.LAS (_parsed (fst st))
    /\ _gold_file w1 = _gold_file (fst st)
    /\ files w1 = files (fst st)
    /\ trace w1 = trace (fst st).
Proof.
  intros Haligned Hall. revert st Haligned.
  induction Hall as [|batch rest Hbatch _ IH]; intros [w ups] Haligned.
  - exists w. cbn. rewrite !app_nil_r. now repeat split.
  - cbn [fst snd] in *. destruct (Hbatch w) as (Hne & Hshape & Hlabels).
    destruct (append_ok E (map (drop 1) (batch_tokens batch)) _ w Hne Hlabels)
      as (lss & Hlss & Hrun).
    pose proof (aligned_extended E (_parsed w) _ _ lss Haligned Hshape Hlss)
      as Haligned'.
    cbn [test_batches]. unfold test_batch. cbn [fst snd]. rewrite Hrun.
    match goal with
    | |- context [test_batches _ _ rest (?w', ?ups')] =>
        destruct (IH (w', ups') Haligned')
          as (w1 & Hloop & Hal1 & Hs1 & Hu1 & Hl1 & Hg1 & Hf1 & Ht1)
    end.
    exists w1. cbn [fst snd] in *. rewrite Hloop.
    unfold updates, evaluated. cbn [map concat].
    rewrite <- !app_assoc. cbn [app].
    split; [reflexivity|]. split; [exact Hal1|].
    split; [rewrite Hs1; cbn; now rewrite <- app_assoc|].
    repeat split; assumption.
Qed.


(** X15. A batch on which [append] raises ends [test] with that exception
    before anything is scored: the batches before it are in the evaluator and
    in the progress bar, the failing one is not in the progress bar, the
    trace holds no scorer call and no log message more than at the start, and
    the disk is as it was. *)
Theorem test_stops_without_report (test_file : string)
    (before after : list (TestBatch X T)) (failing : TestBatch X T)
    (e : exn) (w : World) :
  Forall (usable_batch E model_parse) before ->
  (forall w', fst (append E (map (drop 1) (batch_tokens failing))
                     (model_parse w' (batch_inputs failing) (batch_tokens failing)) w')
              = Raise e) ->
  exists w1,
    test E model_parse test_file (before ++ failing :: after) w
    = (Raise e, (w1, updates before))
    /\ firstn (length (evaluated before)) (Parsed.sentences (_parsed w1))
       = evaluated before
    /\ files w1 = files w
    /\ trace w1 = trace w.
Proof.
  intros Hall Hfails. unfold test. rewrite test_batches_app.
  destruct (test_batches_usable before (snd (set_gold E test_file w), [])
              eq_refl Hall)
    as (w0 & Hloop & Hal0 & Hs0 & _ & _ & Hg0 & Hf0 & Ht0).
  rewrite Hloop. cbn [app test_batches]. unfold test_batch. cbn [fst snd].
  pose proof (Hfails w0) as Hfail.
  destruct (append_frame E (map (drop 1) (batch_tokens failing))
              (model_parse w0 (batch_inputs failing) (batch_tokens failing)) w0)
    as (_ & Hf & Ht).
  pose proof (append_sentences E (map (drop 1) (batch_tokens failing))
                (model_parse w0 (batch_inputs failing) (batch_tokens failing)) w0)
    as Hs.
  destruct (append E _ _ w0) as [[[]|e'] w1] eqn:Happ;
    cbn [fst snd] in Hfail, Hf, Ht, Hs; [discriminate|].
  injection Hfail as ->.
  exists w1. split; [reflexivity|].
  change (files w0 = files w) in Hf0. change (trace w0 = trace w) in Ht0.
  change (Parsed.sentences (_parsed w0) = evaluated before) in Hs0.
  split; [|split; congruence].
  rewrite Hs, Hs0. apply take_app_length.
Qed.

End TestLoop.


Lemma test_stops_without_report_witness :
  let env := scripted [eval_pl_report] [] in
  let parse := fun (_ : World) (inputs : list unit) (_ : list (list Token.t)) =>
                 match inputs with
                 | [] => []
                 | _ => [([2; 0], [2; 1])]
                 end in
  let batch := {| batch_inputs := [tt]; batch_tokens := [[root_token; dog; barks]];
                  batch_ts := [tt] |} in
  let empty := {| batch_inputs := []; batch_tokens := [[root_token; dog]];
                  batch_ts := [tt] |} in
  let w := initial "" ∅ in
  exists w1,
    test env parse "/data/test.conll" [batch; empty; batch] w
    = (Raise ValueError, (w1, [1%nat]))
    /\ trace w1 = [].
Proof.
  intros env parse batch empty w.
  destruct (test_stops_without_report env parse "/data/test.conll"
              [batch] [batch] empty ValueError w) as (w1 & Hrun & _ & _ & Ht).
  - constructor; [|constructor].
    intros w'. split; [discriminate|]. split.
    + constructor; [cbn; lia | constructor].
    + constructor; [|constructor].
      constructor; [exists "nsubj"; reflexivity|].
      constructor; [exists "root"; reflexivity|]. constructor.
  - intros w'. reflexivity.
  - exists w1. split; [exact Hrun | exact Ht].
Defined.

Section BatchEnd.

Context {X : Type} (E : Env X).

(** [append] only adds: what it does to the accumulated predictions, however
    it ends. *)
Lemma append_only_adds (sentences : list (list Token.t))
    (parsed : list (list Z * list Z)) :
  exists o heads lss, forall w,
    append E sentences parsed w
    = (o,
       set_parsed
         {| Parsed.sentences := (Parsed.sentences (_parsed w) ++ sentences)%list;
            Parsed.heads := (Parsed.heads (_parsed w) ++ heads)%list;
            Parsed.deprels := (Parsed.deprels (_parsed w) ++ lss)%list;
            Parsed.UAS := Parsed.UAS (_parsed w);
            Parsed.LAS := Parsed.LAS (_parsed w) |} w).
Proof.
  destruct parsed as [|pr parsed'].
  - exists (Raise ValueError), [], []. intros w.
    unfold append, bind, lift, unzip_parsed, extend_sentences, modify.
    cbn. now rewrite !app_nil_r.
  - destruct (extend_labels_run E (map snd (pr :: parsed'))) as (o & lss & Hrun).
    exists o, (map fst (pr :: parsed')), lss. intros w.
    now apply append_explicit.
Qed.

(** X16. [on_batch_end] only adds to the accumulated predictions: whether
    the batch is a training batch or not, and whether the call returns or
    raises, the sentences, heads and deprels held before are still there, in
    front of what was added, and UAS, LAS, the gold file, the disk and the
    trace are as they were.  Scores are never unset by a batch, and nothing
    is scored or logged by it. *)
Theorem on_batch_end_only_adds (data : BatchData X) (w : World) :
  let w' := snd (on_batch_end E data w) in
  (exists sentences heads deprels,
      Parsed.sentences (_parsed w') = (Parsed.sentences (_parsed w) ++ sentences)%list
      /\ Parsed.heads (_parsed w') = (Parsed.heads (_parsed w) ++ heads)%list
      /\ Parsed.deprels (_parsed w') = (Parsed.deprels (_parsed w) ++ deprels)%list)
  /\ Parsed.UAS (_parsed w') = Parsed.UAS (_parsed w)
  /\ Parsed.LAS (_parsed w') = Parsed.LAS (_parsed w)
  /\ _gold_file w' = _gold_file w
  /\ files w' = files w
  /\ trace w' = trace w.
Proof.
  assert (H : exists sentences heads lss,
             snd (on_batch_end E data w)
             = set_parsed
                 {| Parsed.sentences := (Parsed.sentences (_parsed w) ++ sentences)%list;
                    Parsed.heads := (Parsed.heads (_parsed w) ++ heads)%list;
                    Parsed.deprels := (Parsed.deprels (_parsed w) ++ lss)%list;
                    Parsed.UAS := Parsed.UAS (_parsed w);
                    Parsed.LAS := Parsed.LAS (_parsed w) |} w).
  { unfold on_batch_end. destruct (train data).
    - exists [], [], []. unfold ret. cbn [snd]. rewrite !app_nil_r.
      now destruct w as [g [] fs t].
    - unfold bind. cbn [fst snd].
      destruct (append_only_adds (map (drop 1) (xs_tokens data))
                  (parser_parse E w (xs_inputs data) true))
        as (o & hs & lss & Hrun).
      rewrite Hrun. now exists (map (drop 1) (xs_tokens data)), hs, lss. }
  destruct H as (ss & hs & lss & Hw'). cbv zeta. rewrite Hw'.
  split; [|now repeat split].
  now exists ss, hs, lss.
Qed.

End BatchEnd.
